(** * The stats collector of the solo pool ([stats/collector.go])

    A shallow embedding of the [Collector] daemon: the accumulator
    [PendingStats], the constructor [NewCollector], the flusher loop [Run]
    cut into its atomic sections, and [Stop].  Other goroutines ([Record],
    [Stop]) are interleaved between the sections of [Run].

    Conventions of the model:
    - Go's [uint64] and [int64] values are in [Z]; the only arithmetic on
      them is [now / 60 * 60], whose result is between [0] and [now], so
      no wrap-around is reachable;
    - [float64] is binary64 as [SpecFloat] defines it;
    - a section that holds [Mux] is one step of the machine; [Run] reads
      the cancellation only at its [select];
    - the clock and the results of the database are given by the world,
      call after call;
    - the loop over the Go map visits the entries in the order of
      [map_to_list]; the order of Go is not specified, and no property
      below depends on it but the order of the floating-point sum;
    - the log keeps the message and the value given to
      [humanize.SIWithDigits], not the formatted text. *)

From Stdlib Require Import ZArith List Lia Bool Sorting.Sorted.
From Stdlib Require Import Floats.SpecFloat.
From stdpp Require Import gmap strings list fin_maps sorting.

Local Open Scope Z_scope.

(** ** float64 *)

(** Go's [float64] is IEEE 754 binary64: 53 bits of precision, [emax = 1024].
    Operations round to nearest even, as [SpecFloat] specifies them. *)
Module F64.

Definition prec : Z := 53.
Definition emax : Z := 1024.

Definition t : Type := spec_float.

Definition zero : t := S754_zero false.

(** The conversion [float64(n)] of an integer. *)
Definition of_int (n : Z) : t := binary_normalize prec emax n 0 false.

Definition add (x y : t) : t := SFadd prec emax x y.
Definition mul (x y : t) : t := SFmul prec emax x y.
Definition div (x y : t) : t := SFdiv prec emax x y.

End F64.

Abbreviation float64 := F64.t.

(** ** Constants *)

Definition statCollectionPeriodSecs : Z := 60.
Definition keepStatsForSecs : Z := 86400.

(** ** Data model *)

(** Modelled from the spec: the declaration of [PendingStat] is in another
    file of the package; its fields are the ones [Run] reads. *)
Record PendingStat := {
  ValidShares : Z;
  StaleShares : Z;
  InvalidShares : Z;
  ReportedHashrate : float64;
  IPAddress : string
}.

Module db.

(** Modelled from the spec: [db.Stat], as [Run] fills it. *)
Record Stat := {
  WorkerName : string;
  ValidShareCount : Z;
  StaleShareCount : Z;
  InvalidShareCount : Z;
  ReportedHashrate : float64;
  EffectiveHashrate : float64;
  IPAddress : string
}.

(** One entry of a [leveldb.Batch]: what [db.WriteStatToBatch (batch, stat,
    timestamp)] adds to the batch. *)
Record Row := { stat : Stat; timestamp : Z }.

Definition WriteStatToBatch (batch : list Row) (s : Stat) (ts : Z) : list Row :=
  batch ++ [{| stat := s; timestamp := ts |}].

End db.

(** The [Collector] struct.  [Done] is the state of [Context]: [true] once
    [ContextCancelFunc] was called.  [Mux] is the mutual exclusion of the
    sections that hold it; [Database] and [engineWaitGroup] are outside. *)
Record Collector := {
  PendingStats : gmap string PendingStat;
  ShareDifficulty : Z;
  Done : bool
}.

(** [Init]: a fresh, empty map. *)
Definition Init (c : Collector) : Collector :=
  {| PendingStats := ∅; ShareDifficulty := ShareDifficulty c; Done := Done c |}.

(** [Clear]: [for k := range c.PendingStats { delete(c.PendingStats, k) }]. *)
Definition clear_map (m : gmap string PendingStat) : gmap string PendingStat :=
  foldr (fun kv acc => delete kv.1 acc) m (map_to_list m).

Definition Clear (c : Collector) : Collector :=
  {| PendingStats := clear_map (PendingStats c);
     ShareDifficulty := ShareDifficulty c; Done := Done c |}.

(** [NewCollector]: no check of its argument, one return. *)
Definition NewCollector (shareDifficulty : Z) : Collector :=
  Init {| PendingStats := ∅; ShareDifficulty := shareDifficulty; Done := false |}.

(** [Stop]: calls the cancel function, which closes [Context.Done ()]; a second
    call of a cancel function does nothing. *)
Definition Stop (c : Collector) : Collector :=
  {| PendingStats := PendingStats c; ShareDifficulty := ShareDifficulty c;
     Done := true |}.

(** Modelled from the spec: [Record] is in another file of the package.
    Counters are summed, the reported hashrate and the address are
    overwritten, the entry is created when absent. *)
Record RecordArgs := {
  r_worker : string;
  r_valid : Z;
  r_stale : Z;
  r_invalid : Z;
  r_reported : float64;
  r_ip : string
}.

Definition merge_stat (a : RecordArgs) (old : option PendingStat) : PendingStat :=
  match old with
  | Some p =>
      {| ValidShares := ValidShares p + r_valid a;
         StaleShares := StaleShares p + r_stale a;
         InvalidShares := InvalidShares p + r_invalid a;
         ReportedHashrate := r_reported a;
         IPAddress := r_ip a |}
  | None =>
      {| ValidShares := r_valid a;
         StaleShares := r_stale a;
         InvalidShares := r_invalid a;
         ReportedHashrate := r_reported a;
         IPAddress := r_ip a |}
  end.

Definition RecordStat (a : RecordArgs) (c : Collector) : Collector :=
  {| PendingStats :=
       <[r_worker a := merge_stat a (PendingStats c !! r_worker a)]> (PendingStats c);
     ShareDifficulty := ShareDifficulty c; Done := Done c |}.

(** ** The clock *)

(** [time.Now().Unix() / statCollectionPeriodSecs * statCollectionPeriodSecs]:
    Go's integer division truncates toward zero. *)
Definition bucket (now : Z) : Z :=
  Z.quot now statCollectionPeriodSecs * statCollectionPeriodSecs.

(** ** The environment of [Run] *)

(** What [Run] reads from outside: the [n]-th call of [time.Now().Unix()]
    returns [clock n]; the [n]-th call into the database ([DB.Write] or
    [PruneStats]) fails when [db_fails n]. *)
Record World := {
  clock : nat -> Z;
  db_fails : nat -> bool
}.

(** ** The flusher loop *)

(** The places where [Run] can be between two atomic sections. *)
Inductive PC :=
| AtEntry      (* before line 65 *)
| AtSelect     (* line 77, the head of the loop *)
| AtSnapshot   (* line 92, before [c.Mux.Lock()] *)
| AtClear      (* line 112 *)
| AtWrite      (* line 114 *)
| AtLog        (* line 116 *)
| AtPrune      (* line 122 *)
| Returned.    (* after the [return] of line 82 *)

(** A line of the log: the message and the [effective-hashrate] field. *)
Record LogEntry := {
  log_msg : string;
  log_hashrate : option float64
}.

(** What one section of the program did; the history of a run is the list
    of these, oldest first. *)
Inductive Step :=
| SStart (now : Z)                       (* lines 65-74 *)
| SStopped                               (* lines 78-82 *)
| SIdle (now : Z)                        (* lines 84-87, one second of sleep *)
| SCross (now : Z)                       (* lines 84-90 *)
| SSnapshot (rows : list db.Row)         (* lines 92-110 *)
| SClear                                 (* line 112 *)
| SWrite (rows : list db.Row) (err : bool)   (* line 114 *)
| SLog (e : LogEntry)                    (* lines 116-120 *)
| SPrune (keep : Z) (err : bool)         (* line 122 *)
| SRecord (a : RecordArgs)               (* another goroutine: [Record] *)
| SStop.                                 (* another goroutine: [Stop] *)

Record Machine := {
  coll : Collector;
  pc : PC;
  prevCollectionTimestamp : Z;
  totalCollectedHashrate : float64;
  batch : list db.Row;
  reads : nat;       (* calls of [time.Now ()] so far *)
  db_calls : nat;    (* calls into the database so far *)
  history : list Step
}.

(** The machine before [Run] is called on [c]. *)
Definition boot (c : Collector) : Machine :=
  {| coll := c; pc := AtEntry; prevCollectionTimestamp := 0;
     totalCollectedHashrate := F64.zero; batch := [];
     reads := 0; db_calls := 0; history := [] |}.

(** The body of the loop of line 95 for one entry of the map; [now] is what
    [time.Now().Unix()] returns at line 96. *)
Definition collect_one (shareDifficulty : Z) (now : Z)
    (entry : string * PendingStat) (acc : float64 * list db.Row)
    : float64 * list db.Row :=
  let '(workerName, pendingStat) := entry in
  let '(total, batch) := acc in
  let timestamp := bucket now in
  let effectiveHashrate :=
    F64.mul (F64.of_int (ValidShares pendingStat)) (F64.of_int shareDifficulty) in
  let total' :=
    F64.add total (F64.div effectiveHashrate (F64.of_int statCollectionPeriodSecs)) in
  let stat :=
    {| db.WorkerName := workerName;
       db.ValidShareCount := ValidShares pendingStat;
       db.StaleShareCount := StaleShares pendingStat;
       db.InvalidShareCount := InvalidShares pendingStat;
       db.ReportedHashrate := ReportedHashrate pendingStat;
       db.EffectiveHashrate := effectiveHashrate;
       db.IPAddress := IPAddress pendingStat |} in
  (total', db.WriteStatToBatch batch stat timestamp).

(** The loop of lines 95-109 over the entries, the [n]-th call of the clock
    first. *)
Fixpoint collect (w : World) (shareDifficulty : Z) (n : nat)
    (entries : list (string * PendingStat)) (acc : float64 * list db.Row)
    : float64 * list db.Row :=
  match entries with
  | [] => acc
  | e :: rest =>
      collect w shareDifficulty (S n) rest
        (collect_one shareDifficulty (clock w n) e acc)
  end.

Definition success_entry (total : float64) : LogEntry :=
  {| log_msg := "Successfully collected data"; log_hashrate := Some total |}.

(** One section of [Run]. *)
Definition flusher_step (w : World) (m : Machine) : Machine :=
  match pc m with
  | AtEntry =>
      let now := clock w (reads m) in
      {| coll := coll m; pc := AtSelect;
         prevCollectionTimestamp := bucket now;
         totalCollectedHashrate := F64.zero;
         batch := batch m;
         reads := S (reads m); db_calls := db_calls m;
         history := history m ++ [SStart now] |}
  | AtSelect =>
      if Done (coll m) then
        {| coll := coll m; pc := Returned;
           prevCollectionTimestamp := prevCollectionTimestamp m;
           totalCollectedHashrate := totalCollectedHashrate m;
           batch := batch m;
           reads := reads m; db_calls := db_calls m;
           history := history m ++ [SStopped] |}
      else
        let now := clock w (reads m) in
        let currentCollectionTimestamp := bucket now in
        if prevCollectionTimestamp m =? currentCollectionTimestamp then
          {| coll := coll m; pc := AtSelect;
             prevCollectionTimestamp := prevCollectionTimestamp m;
             totalCollectedHashrate := totalCollectedHashrate m;
             batch := batch m;
             reads := S (reads m); db_calls := db_calls m;
             history := history m ++ [SIdle now] |}
        else
          {| coll := coll m; pc := AtSnapshot;
             prevCollectionTimestamp := currentCollectionTimestamp;
             totalCollectedHashrate := totalCollectedHashrate m;
             batch := batch m;
             reads := S (reads m); db_calls := db_calls m;
             history := history m ++ [SCross now] |}
  | AtSnapshot =>
      let entries := map_to_list (PendingStats (coll m)) in
      let '(total, rows) :=
        collect w (ShareDifficulty (coll m)) (reads m) entries
          (totalCollectedHashrate m, []) in
      {| coll := coll m; pc := AtClear;
         prevCollectionTimestamp := prevCollectionTimestamp m;
         totalCollectedHashrate := total;
         batch := rows;
         reads := (reads m + length entries)%nat; db_calls := db_calls m;
         history := history m ++ [SSnapshot rows] |}
  | AtClear =>
      {| coll := Clear (coll m); pc := AtWrite;
         prevCollectionTimestamp := prevCollectionTimestamp m;
         totalCollectedHashrate := totalCollectedHashrate m;
         batch := batch m;
         reads := reads m; db_calls := db_calls m;
         history := history m ++ [SClear] |}
  | AtWrite =>
      {| coll := coll m; pc := AtLog;
         prevCollectionTimestamp := prevCollectionTimestamp m;
         totalCollectedHashrate := totalCollectedHashrate m;
         batch := batch m;
         reads := reads m; db_calls := S (db_calls m);
         history := history m ++ [SWrite (batch m) (db_fails w (db_calls m))] |}
  | AtLog =>
      {| coll := coll m; pc := AtPrune;
         prevCollectionTimestamp := prevCollectionTimestamp m;
         totalCollectedHashrate := F64.zero;
         batch := batch m;
         reads := reads m; db_calls := db_calls m;
         history := history m ++ [SLog (success_entry (totalCollectedHashrate m))] |}
  | AtPrune =>
      {| coll := coll m; pc := AtSelect;
         prevCollectionTimestamp := prevCollectionTimestamp m;
         totalCollectedHashrate := totalCollectedHashrate m;
         batch := batch m;
         reads := reads m; db_calls := S (db_calls m);
         history :=
           history m ++ [SPrune keepStatsForSecs (db_fails w (db_calls m))] |}
  | Returned => m
  end.

(** The other goroutines touch the collector only. *)
Definition with_coll (f : Collector -> Collector) (s : Step) (m : Machine) : Machine :=
  {| coll := f (coll m); pc := pc m;
     prevCollectionTimestamp := prevCollectionTimestamp m;
     totalCollectedHashrate := totalCollectedHashrate m;
     batch := batch m;
     reads := reads m; db_calls := db_calls m;
     history := history m ++ [s] |}.

(** Who runs next. *)
Inductive Act :=
| AFlusher
| ARecord (a : RecordArgs)
| AStop.

Definition act_step (w : World) (m : Machine) (a : Act) : Machine :=
  match a with
  | AFlusher => flusher_step w m
  | ARecord r => with_coll (RecordStat r) (SRecord r) m
  | AStop => with_coll Stop SStop m
  end.

Definition exec (w : World) (acts : list Act) (m : Machine) : Machine :=
  fold_left (act_step w) acts m.

(** Runs of the whole program on a collector [c]. *)
Definition run (w : World) (c : Collector) (acts : list Act) : Machine :=
  exec w acts (boot c).

(** ** Reading a history *)

(** The rows handed to [DB.Write], in order. *)
Definition written (h : list Step) : list db.Row :=
  concat (map (fun s => match s with SWrite rows _ => rows | _ => [] end) h).

(** What the clock returned at line 84, poll after poll. *)
Definition polled (h : list Step) : list Z :=
  concat (map (fun s => match s with SIdle t | SCross t => [t] | _ => [] end) h).

(** The boundaries whose crossing started a flush. *)
Definition triggered (h : list Step) : list Z :=
  concat (map (fun s => match s with SCross t => [bucket t] | _ => [] end) h).

(** What the clock returned at line 68. *)
Definition starts (h : list Step) : list Z :=
  concat (map (fun s => match s with SStart t => [t] | _ => [] end) h).

Definition started (h : list Step) : option Z := head (starts h).

(** The lines of the log. *)
Definition log_of (s : Step) : list LogEntry :=
  match s with
  | SStart _ => [{| log_msg := "Started Stats Collector"; log_hashrate := None |}]
  | SStopped => [{| log_msg := "Stopped Stats Collector"; log_hashrate := None |}]
  | SLog e => [e]
  | _ => []
  end.

Definition logs (h : list Step) : list LogEntry := concat (map log_of h).

(** The calls into the database that failed. *)
Definition db_failure (s : Step) : bool :=
  match s with
  | SWrite _ err | SPrune _ err => err
  | _ => false
  end.

Definition is_write (s : Step) : bool :=
  match s with SWrite _ _ => true | _ => false end.

Definition is_prune (s : Step) : bool :=
  match s with SPrune _ _ => true | _ => false end.

(** ** Derived quantities *)

(** The hashrate of [validShares] shares of difficulty [shareDifficulty] over
    one period, as line 98 computes it. *)
Definition hashrate_of (shareDifficulty validShares : Z) : float64 :=
  F64.div (F64.mul (F64.of_int validShares) (F64.of_int shareDifficulty))
          (F64.of_int statCollectionPeriodSecs).

(** The running sum of line 98 over the rows of a batch, from zero. *)
Definition sum_hashrates (shareDifficulty : Z) (rows : list db.Row) : float64 :=
  fold_left
    (fun acc r => F64.add acc (hashrate_of shareDifficulty (db.ValidShareCount (db.stat r))))
    rows F64.zero.

Definition stat_of (shareDifficulty : Z) (e : string * PendingStat) : db.Stat :=
  {| db.WorkerName := e.1;
     db.ValidShareCount := ValidShares e.2;
     db.StaleShareCount := StaleShares e.2;
     db.InvalidShareCount := InvalidShares e.2;
     db.ReportedHashrate := ReportedHashrate e.2;
     db.EffectiveHashrate :=
       F64.mul (F64.of_int (ValidShares e.2)) (F64.of_int shareDifficulty);
     db.IPAddress := IPAddress e.2 |}.

(** The rows of a snapshot whose first clock call is the [n]-th. *)
Fixpoint stamped_rows (w : World) (shareDifficulty : Z) (n : nat)
    (entries : list (string * PendingStat)) : list db.Row :=
  match entries with
  | [] => []
  | e :: rest =>
      {| db.stat := stat_of shareDifficulty e; db.timestamp := bucket (clock w n) |}
      :: stamped_rows w shareDifficulty (S n) rest
  end.

Definition worker_of (r : db.Row) : string := db.WorkerName (db.stat r).

Definition aligned (r : db.Row) : Prop :=
  db.timestamp r mod statCollectionPeriodSecs = 0.

(** The elements of [l] that differ from the one before them, [prev] being
    before the first. *)
Fixpoint changes (prev : Z) (l : list Z) : list Z :=
  match l with
  | [] => []
  | x :: rest => if prev =? x then changes prev rest else x :: changes x rest
  end.

(** The sections of one flush. *)
Definition in_flush (p : PC) : bool :=
  match p with
  | AtSnapshot | AtClear | AtWrite | AtLog | AtPrune => true
  | AtEntry | AtSelect | Returned => false
  end.

(** How many sections the flusher runs before it is back at the [select]. *)
Definition sections_left (p : PC) : nat :=
  match p with
  | AtSnapshot => 5
  | AtClear => 4
  | AtWrite => 3
  | AtLog => 2
  | AtPrune => 1
  | AtEntry => 1
  | AtSelect | Returned => 0
  end.

Definition is_flusher (a : Act) : bool :=
  match a with AFlusher => true | _ => false end.

Definition flusher_turns (acts : list Act) : nat := length (List.filter is_flusher acts).

(** A history without the results of the database calls. *)
Definition forget_err (s : Step) : Step :=
  match s with
  | SWrite rows _ => SWrite rows false
  | SPrune keep _ => SPrune keep false
  | _ => s
  end.

Definition forget (m : Machine) : Machine :=
  {| coll := coll m; pc := pc m;
     prevCollectionTimestamp := prevCollectionTimestamp m;
     totalCollectedHashrate := totalCollectedHashrate m;
     batch := batch m;
     reads := reads m; db_calls := db_calls m;
     history := map forget_err (history m) |}.

(** A collector is configured when its difficulty is positive. *)
Definition configured (c : Collector) : Prop := 0 < ShareDifficulty c.

(** The running total between two sections of a run on a collector of
    difficulty [D]: zero outside a flush, the sum over the rows of the batch
    from the snapshot to the log. *)
Definition total_inv (D : Z) (m : Machine) : Prop :=
  ShareDifficulty (coll m) = D /\
  match pc m with
  | AtEntry => True
  | AtSelect | AtSnapshot | AtPrune | Returned =>
      totalCollectedHashrate m = F64.zero
  | AtClear | AtWrite | AtLog =>
      totalCollectedHashrate m = sum_hashrates D (batch m) /\
      SSnapshot (batch m) ∈ history m
  end.

(** The marker of the previous boundary between two sections: the bucket
    of the last poll, or of the start when there was no poll yet; and the
    flushes started so far are the changes of bucket from poll to poll. *)
Definition poll_inv (m : Machine) : Prop :=
  match starts (history m) with
  | [] => pc m = AtEntry /\ polled (history m) = [] /\ triggered (history m) = []
  | t0 :: rest =>
      rest = [] /\ pc m <> AtEntry /\
      triggered (history m) = changes (bucket t0) (map bucket (polled (history m))) /\
      prevCollectionTimestamp m =
        default (bucket t0) (last (map bucket (polled (history m))))
  end.

(** How many steps of a history are of one kind. *)
Definition count_steps (f : Step -> bool) (h : list Step) : nat :=
  length (List.filter f h).

(** The calls of [DB.Write] and of [PruneStats] that the flush in progress
    still has to make. *)
Definition writes_due (p : PC) : nat :=
  match p with
  | AtSnapshot | AtClear | AtWrite => 1
  | _ => 0
  end.

Definition prunes_due (p : PC) : nat := if in_flush p then 1 else 0.

(** Further readings of a run. *)

Definition is_log (s : Step) : bool :=
  match s with SLog _ => true | _ => false end.

Definition is_stop (a : Act) : bool :=
  match a with AStop => true | _ => false end.

Definition is_record (a : Act) : bool :=
  match a with ARecord _ => true | _ => false end.

(** The success lines that the flush in progress still has to log. *)
Definition logs_due (p : PC) : nat :=
  match p with
  | AtSnapshot | AtClear | AtWrite | AtLog => 1
  | _ => 0
  end.

(** The messages of the log of a run that is at [p] and has logged
    [flushes] flushes. *)
Definition expected_log (p : PC) (flushes : nat) : list string :=
  match p with
  | AtEntry => []
  | _ =>
      "Started Stats Collector"
      :: repeat "Successfully collected data" flushes
      ++ match p with Returned => ["Stopped Stats Collector"] | _ => [] end
  end.

(** A flush that has called [DB.Write] and not yet [PruneStats]. *)
Definition prune_pending (p : PC) : nat :=
  match p with
  | AtLog | AtPrune => 1
  | _ => 0
  end.

(** A clock that does not go back. *)
Definition steady (w : World) : Prop :=
  forall i j, (i <= j)%nat -> clock w i <= clock w j.

(** The steps of [Run] itself, not of another goroutine. *)
Definition by_flusher (s : Step) : bool :=
  match s with
  | SRecord _ | SStop => false
  | _ => true
  end.

(** The log between two sections: nothing before the start; then the start
    line, one success line for each flush that reached its log, and the
    stop line once [Run] has returned. *)
Definition log_inv (m : Machine) : Prop :=
  match pc m with
  | AtEntry => logs (history m) = [] /\ triggered (history m) = []
  | p =>
      exists k, (k + logs_due p)%nat = length (triggered (history m)) /\
                map log_msg (logs (history m)) = expected_log p k
  end.

(** The batch that is built and not yet handed to [DB.Write]. *)
Definition unwritten (p : PC) (b : list db.Row) : list db.Row :=
  match p with
  | AtClear | AtWrite => b
  | _ => []
  end.

(** Timestamps in order, none above the bucket of a clock value still to be
    read, the [r]-th or a later one. *)
Definition stamps_ok (w : World) (r : nat) (stamps : list Z) : Prop :=
  StronglySorted Z.le stamps /\
  Forall (fun t => forall j, (r <= j)%nat -> t <= bucket (clock w j)) stamps.

Definition stamps_inv (w : World) (m : Machine) : Prop :=
  stamps_ok w (reads m)
    (map db.timestamp (written (history m) ++ unwritten (pc m) (batch m))).

(** The period index of the specification: the floor of the Unix time
    divided by the period length. *)
Definition period_index (now : Z) : Z := now / statCollectionPeriodSecs.

(** The clock values at which the loop head saw a boundary crossed and
    started a flush. *)
Definition crossed (h : list Step) : list Z :=
  concat (map (fun s => match s with SCross t => [t] | _ => [] end) h).

(** How many times a step called [time.Now ()]. *)
Definition clock_reads (s : Step) : nat :=
  match s with
  | SStart _ | SIdle _ | SCross _ => 1
  | SSnapshot rows => length rows
  | _ => 0
  end.

Definition total_reads (h : list Step) : nat :=
  foldr (fun s n => (clock_reads s + n)%nat) 0%nat h.

(** The values that a history says were read at the start and at the polls
    are those of the clock of the world, call after call, [k] calls having
    been made before. *)
Fixpoint agrees (w : World) (k : nat) (h : list Step) : Prop :=
  match h with
  | [] => True
  | s :: rest =>
      match s with
      | SStart t | SIdle t | SCross t => t = clock w k
      | _ => True
      end /\ agrees w (k + clock_reads s) rest
  end.

Definition reads_inv (w : World) (m : Machine) : Prop :=
  agrees w 0 (history m) /\ reads m = total_reads (history m).

(** Clock values in the order they were read, none before 1970, none above
    a value still to be read, the [r]-th or a later one. *)
Definition polls_ok (w : World) (r : nat) (values : list Z) : Prop :=
  StronglySorted Z.le values /\
  Forall (fun t => 0 <= t /\ forall j, (r <= j)%nat -> t <= clock w j) values.

Definition polls_inv (w : World) (m : Machine) : Prop :=
  (pc m = AtEntry ->
   reads m = 0%nat /\ starts (history m) = [] /\ polled (history m) = []) /\
  (pc m <> AtEntry -> starts (history m) = [clock w 0]) /\
  polls_ok w (reads m) (starts (history m) ++ polled (history m)).

(** ** Concrete runs *)

Module Examples.

(** The scenario of the specification: period 60, difficulty 1000, one
    call of [Record] for [rig1]. *)
Definition rig1 : RecordArgs :=
  {| r_worker := "rig1"; r_valid := 10; r_stale := 0; r_invalid := 0;
     r_reported := F64.of_int 500; r_ip := "1.2.3.4" |}.

Definition rig1_more : RecordArgs :=
  {| r_worker := "rig1"; r_valid := 5; r_stale := 0; r_invalid := 0;
     r_reported := F64.of_int 500; r_ip := "1.2.3.4" |}.

Definition rig2 : RecordArgs :=
  {| r_worker := "rig2"; r_valid := 3; r_stale := 1; r_invalid := 0;
     r_reported := F64.of_int 200; r_ip := "1.2.3.5" |}.

(** A clock that is read at second 30, then 45, then 61, then 62, then
    125 for ever. *)
Definition clock_a (n : nat) : Z :=
  match n with
  | O => 30
  | 1%nat => 45
  | 2%nat => 61
  | 3%nat => 62
  | _ => 125
  end.

(** A clock for a flush that is held up between two rows: 30, 61, 61,
    then 120. *)
Definition clock_b (n : nat) : Z :=
  match n with
  | O => 30
  | 1%nat => 61
  | 2%nat => 61
  | _ => 120
  end.

Definition world_ok : World := {| clock := clock_a; db_fails := fun _ => false |}.
Definition world_failing : World := {| clock := clock_a; db_fails := fun _ => true |}.
Definition world_slow : World := {| clock := clock_b; db_fails := fun _ => false |}.

(** [Run] alone for [n] sections. *)
Definition turns (n : nat) : list Act := repeat AFlusher n.

(** [rig1] is recorded, then the loop starts, idles once and flushes. *)
Definition one_period : list Act := ARecord rig1 :: turns 8.

(** The same, with a second call of [Record] between the snapshot and the
    call of [Clear], and a whole second flush after it. *)
Definition racing : list Act :=
  ARecord rig1 :: turns 4 ++ ARecord rig1_more :: turns 11.

Definition two_rigs : list Act := ARecord rig1 :: ARecord rig2 :: turns 7.

(** More shares of [rig2], in the next period. *)
Definition rig2_next : RecordArgs :=
  {| r_worker := "rig2"; r_valid := 7; r_stale := 0; r_invalid := 0;
     r_reported := F64.of_int 200; r_ip := "1.2.3.5" |}.

(** The held-up flush of [two_rigs], then [rig2] again and the flush of the
    next boundary up to its write. *)
Definition slow_twice : list Act := two_rigs ++ ARecord rig2_next :: turns 5.

(** [rig1] is recorded before the flush, [rig2] between the snapshot and the
    call of [Clear]; then the rest of that flush and a whole second one. *)
Definition racing_new_worker : list Act :=
  ARecord rig1 :: turns 4 ++ ARecord rig2 :: turns 11.

(** Two workers in one flush, then [rig1] again and a second flush up to its
    write. *)
Definition busy : list Act :=
  ARecord rig1 :: ARecord rig2 :: turns 8 ++ ARecord rig1_more :: turns 5.

(** A clock that is set back: 30, 61, then 59, then 61 for ever. *)
Definition clock_back (n : nat) : Z :=
  match n with
  | O => 30
  | 1%nat => 61
  | 2%nat => 59
  | _ => 61
  end.

(** A clock that starts before 1970: -30, then 30 for ever. *)
Definition clock_old (n : nat) : Z :=
  match n with
  | O => -30
  | _ => 30
  end.

Definition world_back : World := {| clock := clock_back; db_fails := fun _ => false |}.
Definition world_old : World := {| clock := clock_old; db_fails := fun _ => false |}.

End Examples.

(** ** Lemmas on the pieces *)

Section Pieces.

Context (w : World) (D : Z).

Lemma collect_one_eq now e t b :
  collect_one D now e (t, b) =
    (F64.add t (hashrate_of D (ValidShares e.2)),
     b ++ [{| db.stat := stat_of D e; db.timestamp := bucket now |}]).
Proof. destruct e as [k p]. reflexivity. Qed.

Lemma collect_eq es : forall n t b,
  collect w D n es (t, b) =
    (fold_left (fun acc e => F64.add acc (hashrate_of D (ValidShares e.2))) es t,
     b ++ stamped_rows w D n es).
Proof.
  induction es as [|e es IH]; intros n t b; simpl.
  - by rewrite app_nil_r.
  - rewrite collect_one_eq, IH. by rewrite <- app_assoc.
Qed.

Lemma stamped_rows_length es n :
  length (stamped_rows w D n es) = length es.
Proof. revert n. induction es; intros; simpl; auto. Qed.

Lemma stamped_rows_workers es n :
  map worker_of (stamped_rows w D n es) = es.*1.
Proof. revert n. induction es as [|e es IH]; intros; simpl; [done|]. by rewrite IH. Qed.

Lemma stamped_rows_timestamps es n :
  map db.timestamp (stamped_rows w D n es) =
    map (fun i => bucket (clock w i)) (seq n (length es)).
Proof. revert n. induction es as [|e es IH]; intros; simpl; [done|]. by rewrite IH. Qed.

Lemma stamped_rows_effective es n r :
  r ∈ stamped_rows w D n es ->
  db.EffectiveHashrate (db.stat r) =
    F64.mul (F64.of_int (db.ValidShareCount (db.stat r))) (F64.of_int D).
Proof.
  revert n. induction es as [|e es IH]; intros n; simpl.
  - by intros ?%elem_of_nil.
  - intros [->|Hin]%elem_of_cons; [done | eauto].
Qed.

Lemma sum_hashrates_stamped es : forall n t,
  fold_left (fun acc e => F64.add acc (hashrate_of D (ValidShares e.2))) es t =
  fold_left (fun acc r => F64.add acc (hashrate_of D (db.ValidShareCount (db.stat r))))
    (stamped_rows w D n es) t.
Proof. induction es as [|e es IH]; intros; simpl; [done | apply IH]. Qed.

End Pieces.

Lemma stamped_rows_clock w1 w2 D es : forall n,
  (forall i, clock w1 i = clock w2 i) ->
  stamped_rows w1 D n es = stamped_rows w2 D n es.
Proof.
  induction es as [|e es IH]; intros n H; simpl; [done|].
  by rewrite H, (IH (S n) H).
Qed.

Lemma bucket_multiple now : bucket now mod statCollectionPeriodSecs = 0.
Proof. unfold bucket. apply Z_mod_mult. Qed.

Lemma bucket_floor now :
  0 <= now -> bucket now = statCollectionPeriodSecs * (now / statCollectionPeriodSecs).
Proof.
  intros H. unfold bucket, statCollectionPeriodSecs.
  rewrite Z.quot_div_nonneg by lia. lia.
Qed.

Lemma bucket_mono a b : a <= b -> bucket a <= bucket b.
Proof.
  intros H. unfold bucket, statCollectionPeriodSecs.
  apply Z.mul_le_mono_nonneg_r; [lia|]. apply Z.quot_le_mono; lia.
Qed.

Lemma clear_map_lookup (l : list (string * PendingStat)) (m : gmap string PendingStat) k :
  m !! k = None \/ k ∈ l.*1 ->
  foldr (fun kv acc => delete kv.1 acc) m l !! k = None.
Proof.
  induction l as [|[k' v] l IH]; simpl.
  - intros [H|H]; [done | by apply elem_of_nil in H].
  - intros H. destruct (decide (k' = k)) as [->|Hne].
    + apply lookup_delete_eq.
    + rewrite lookup_delete_ne by done. apply IH.
      destruct H as [H|H]; [by left | right].
      apply elem_of_cons in H as [H|H]; [congruence | done].
Qed.

Lemma clear_map_empty m : clear_map m = ∅.
Proof.
  apply map_eq. intros k. rewrite lookup_empty. unfold clear_map.
  apply clear_map_lookup. destruct (m !! k) as [v|] eqn:E; [right | by left].
  apply list_elem_of_fmap. exists (k, v). split; [done|].
  by apply elem_of_map_to_list.
Qed.

(** ** Runs *)

Lemma exec_app w acts1 acts2 m :
  exec w (acts1 ++ acts2) m = exec w acts2 (exec w acts1 m).
Proof. apply fold_left_app. Qed.

Lemma exec_invariant w (P : Machine -> Prop) :
  (forall m a, P m -> P (act_step w m a)) ->
  forall acts m, P m -> P (exec w acts m).
Proof.
  intros Hstep acts. induction acts as [|a acts IH]; intros m Hm; simpl; auto.
Qed.

Lemma written_app h1 h2 : written (h1 ++ h2) = written h1 ++ written h2.
Proof. unfold written. by rewrite map_app, concat_app. Qed.

Lemma polled_app h1 h2 : polled (h1 ++ h2) = polled h1 ++ polled h2.
Proof. unfold polled. by rewrite map_app, concat_app. Qed.

Lemma triggered_app h1 h2 : triggered (h1 ++ h2) = triggered h1 ++ triggered h2.
Proof. unfold triggered. by rewrite map_app, concat_app. Qed.

Lemma logs_app h1 h2 : logs (h1 ++ h2) = logs h1 ++ logs h2.
Proof. unfold logs. by rewrite map_app, concat_app. Qed.

(** The snapshot section, with its loop unrolled. *)
Lemma flusher_step_snapshot w m :
  pc m = AtSnapshot ->
  flusher_step w m =
    let entries := map_to_list (PendingStats (coll m)) in
    let rows := stamped_rows w (ShareDifficulty (coll m)) (reads m) entries in
    {| coll := coll m; pc := AtClear;
       prevCollectionTimestamp := prevCollectionTimestamp m;
       totalCollectedHashrate :=
         fold_left
           (fun acc r =>
              F64.add acc
                (hashrate_of (ShareDifficulty (coll m)) (db.ValidShareCount (db.stat r))))
           rows (totalCollectedHashrate m);
       batch := rows;
       reads := (reads m + length entries)%nat; db_calls := db_calls m;
       history := history m ++ [SSnapshot rows] |}.
Proof.
  intros Hpc. unfold flusher_step. rewrite Hpc, collect_eq. simpl.
  by rewrite <- sum_hashrates_stamped.
Qed.

Lemma flusher_step_clear w m :
  pc m = AtClear ->
  flusher_step w m =
    {| coll := Clear (coll m); pc := AtWrite;
       prevCollectionTimestamp := prevCollectionTimestamp m;
       totalCollectedHashrate := totalCollectedHashrate m;
       batch := batch m;
       reads := reads m; db_calls := db_calls m;
       history := history m ++ [SClear] |}.
Proof. intros Hpc. unfold flusher_step. by rewrite Hpc. Qed.

Lemma flusher_step_write w m :
  pc m = AtWrite ->
  flusher_step w m =
    {| coll := coll m; pc := AtLog;
       prevCollectionTimestamp := prevCollectionTimestamp m;
       totalCollectedHashrate := totalCollectedHashrate m;
       batch := batch m;
       reads := reads m; db_calls := S (db_calls m);
       history := history m ++ [SWrite (batch m) (db_fails w (db_calls m))] |}.
Proof. intros Hpc. unfold flusher_step. by rewrite Hpc. Qed.

Lemma flusher_step_log w m :
  pc m = AtLog ->
  flusher_step w m =
    {| coll := coll m; pc := AtPrune;
       prevCollectionTimestamp := prevCollectionTimestamp m;
       totalCollectedHashrate := F64.zero;
       batch := batch m;
       reads := reads m; db_calls := db_calls m;
       history := history m ++ [SLog (success_entry (totalCollectedHashrate m))] |}.
Proof. intros Hpc. unfold flusher_step. by rewrite Hpc. Qed.

Lemma flusher_step_prune w m :
  pc m = AtPrune ->
  flusher_step w m =
    {| coll := coll m; pc := AtSelect;
       prevCollectionTimestamp := prevCollectionTimestamp m;
       totalCollectedHashrate := totalCollectedHashrate m;
       batch := batch m;
       reads := reads m; db_calls := S (db_calls m);
       history :=
         history m ++ [SPrune keepStatsForSecs (db_fails w (db_calls m))] |}.
Proof. intros Hpc. unfold flusher_step. by rewrite Hpc. Qed.

(** Case analysis on the section the flusher is about to run. *)
Ltac flusher_cases m :=
  let Hpc := fresh "Hpc" in
  destruct (pc m) eqn:Hpc;
  [ unfold flusher_step; rewrite Hpc
  | unfold flusher_step; rewrite Hpc;
    destruct (Done (coll m)) eqn:Hdone;
    [ | destruct (prevCollectionTimestamp m =? bucket (clock _ (reads m))) eqn:Hsame ]
  | rewrite (flusher_step_snapshot _ m Hpc)
  | unfold flusher_step; rewrite Hpc
  | unfold flusher_step; rewrite Hpc
  | unfold flusher_step; rewrite Hpc
  | unfold flusher_step; rewrite Hpc
  | unfold flusher_step; rewrite Hpc ];
  cbn [coll pc prevCollectionTimestamp totalCollectedHashrate batch reads
       db_calls history].

Ltac act_cases m a :=
  destruct a as [|?r|];
  [ cbn [act_step]; flusher_cases m
  | cbn [act_step with_coll coll pc prevCollectionTimestamp totalCollectedHashrate
         batch reads db_calls history]
  | cbn [act_step with_coll coll pc prevCollectionTimestamp totalCollectedHashrate
         batch reads db_calls history] ].

(** *** Timestamps *)

Lemma stamped_rows_aligned w D es n : Forall aligned (stamped_rows w D n es).
Proof.
  revert n. induction es as [|e es IH]; intros n; simpl; constructor; auto.
  apply bucket_multiple.
Qed.

Lemma aligned_invariant w acts m :
  Forall aligned (batch m) -> Forall aligned (written (history m)) ->
  Forall aligned (batch (exec w acts m)) /\
  Forall aligned (written (history (exec w acts m))).
Proof.
  intros Hb Hh.
  apply (exec_invariant w
    (fun m => Forall aligned (batch m) /\ Forall aligned (written (history m))));
    [clear | by split].
  intros m a [Hb Hh].
  act_cases m a; rewrite ?written_app; simpl; rewrite ?app_nil_r;
    try (split; [assumption | assumption]).
  - split; [apply stamped_rows_aligned | assumption].
  - split; [assumption |].
    apply Forall_app. split; [assumption |].
    unfold written; simpl. by rewrite app_nil_r.
Qed.

(** C7: every row handed to the database by any run of the collector, under
    any interleaving with [Record] and [Stop] and any clock, carries a
    timestamp that is an exact multiple of the period length. *)
Theorem C7_timestamps_aligned (w : World) (c : Collector) (acts : list Act) :
  Forall (fun r => db.timestamp r mod statCollectionPeriodSecs = 0)
         (written (history (run w c acts))).
Proof.
  unfold run. apply (aligned_invariant w acts (boot c)); simpl; constructor.
Qed.

(** *** The rows of a snapshot *)

Lemma snapshot_batch w m :
  pc m = AtSnapshot ->
  batch (flusher_step w m) =
    stamped_rows w (ShareDifficulty (coll m)) (reads m)
      (map_to_list (PendingStats (coll m))).
Proof. intros Hpc. by rewrite flusher_step_snapshot. Qed.

(** What [Run] stores as [EffectiveHashrate]: the product of line 97. *)
Lemma snapshot_effective_hashrate w m r :
  pc m = AtSnapshot -> r ∈ batch (flusher_step w m) ->
  db.EffectiveHashrate (db.stat r) =
    F64.mul (F64.of_int (db.ValidShareCount (db.stat r)))
            (F64.of_int (ShareDifficulty (coll m))).
Proof.
  intros Hpc. rewrite snapshot_batch by done. apply stamped_rows_effective.
Qed.

(** C1: in the scenario of the specification (difficulty 1000, ten valid
    shares of [rig1]) the row handed to the database holds
    [10 * 1000 = 10000] as [EffectiveHashrate], not [10 * 1000 / 60]; the
    division by the period is only in the sum that is logged. *)
Theorem C1_effective_hashrate_stored_undivided :
  let m := run Examples.world_ok (NewCollector 1000) Examples.one_period in
  map (fun r => (worker_of r, db.EffectiveHashrate (db.stat r))) (written (history m))
    = [("rig1", F64.of_int 10000)] /\
  F64.of_int 10000 <> hashrate_of 1000 10 /\
  logs (history m) =
    [ {| log_msg := "Started Stats Collector"; log_hashrate := None |};
      success_entry (hashrate_of 1000 10) ].
Proof. vm_compute. repeat split; congruence. Qed.

(** C2: a call of [Record] that runs after the snapshot section released
    the mutex and before [Clear] takes it again is lost: of the fifteen
    shares of [rig1] recorded, ten reach the database, the map is empty
    afterwards, and the flush of the next boundary delivers nothing. *)
Theorem C2_update_between_snapshot_and_clear_is_lost :
  let m := run Examples.world_ok (NewCollector 1000) Examples.racing in
  (exists rows, history m !! 4%nat = Some (SSnapshot rows)) /\
  history m !! 5%nat = Some (SRecord Examples.rig1_more) /\
  history m !! 6%nat = Some SClear /\
  map (fun r => (worker_of r, db.ValidShareCount (db.stat r))) (written (history m))
    = [("rig1", 10)] /\
  triggered (history m) = [60; 120] /\
  count_steps is_write (history m) = 2%nat /\
  PendingStats (coll m) = ∅ /\
  pc m = AtSelect.
Proof.
  vm_compute. repeat split; try reflexivity. eexists; reflexivity.
Qed.

(** The same calls of [Record], both before the snapshot, are both delivered. *)
Lemma no_race_delivers_all :
  let m := run Examples.world_ok (NewCollector 1000)
             (ARecord Examples.rig1 :: ARecord Examples.rig1_more :: Examples.turns 8) in
  map (fun r => (worker_of r, db.ValidShareCount (db.stat r))) (written (history m))
    = [("rig1", 15)].
Proof. reflexivity. Qed.

(** C3, as the specification states it, fails: [NewCollector] returns a
    collector for the difficulty 0, and [Run] starts on it. *)
Lemma C3_counterexample :
  ~ (forall shareDifficulty, configured (NewCollector shareDifficulty)).
Proof. intros H. specialize (H 0). unfold configured in H. simpl in H. lia. Qed.

(** C3, amended: [NewCollector] checks nothing and always returns a
    collector: it holds the difficulty it was given, whatever it is, an
    empty map and a context that is not cancelled, and [Run] starts on it;
    the period and the retention horizon are the constants 60 and 86400. *)
Theorem C3_NewCollector_checks_nothing (w : World) (shareDifficulty : Z) :
  NewCollector shareDifficulty =
    {| PendingStats := ∅; ShareDifficulty := shareDifficulty; Done := false |} /\
  pc (run w (NewCollector shareDifficulty) [AFlusher]) = AtSelect /\
  statCollectionPeriodSecs = 60 /\ keepStatsForSecs = 86400.
Proof. repeat split. Qed.

(** C5: when the clock passes a second boundary while the snapshot loop
    runs, the flush of boundary 60 stamps the row of [rig2] with 120, the
    value of the clock at line 96, not with the boundary that started the
    flush; the flush of boundary 120 then writes a row of [rig2] under the
    same worker and timestamp. *)
Theorem C5_row_stamped_after_its_boundary :
  let h := history (run Examples.world_slow (NewCollector 1000) Examples.slow_twice) in
  triggered h = [60; 120] /\
  map (fun s => match s with
                | SWrite rows _ =>
                    map (fun r => (worker_of r, db.ValidShareCount (db.stat r),
                                   db.timestamp r)) rows
                | _ => []
                end)
      (List.filter is_write h)
    = [ [("rig1", 10, 60); ("rig2", 3, 120)]; [("rig2", 7, 120)] ] /\
  ~ Forall (fun r => db.timestamp r = 60)
           (batch (run Examples.world_slow (NewCollector 1000) Examples.two_rigs)).
Proof.
  vm_compute. repeat split.
  intros H. apply Forall_cons in H as [_ H]. apply Forall_cons in H as [H _].
  discriminate H.
Qed.

(** What line 96 does in general: every row carries the bucket of the clock
    value read when that row is built; the rows carry the boundary that
    started the flush when all these values are in its period. *)
Lemma rows_stamped_by_the_clock (w : World) (m : Machine) :
  pc m = AtSnapshot ->
  let n := size (PendingStats (coll m)) in
  let rows := batch (flusher_step w m) in
  map db.timestamp rows = map (fun i => bucket (clock w i)) (seq (reads m) n) /\
  ((forall i, (reads m <= i < reads m + n)%nat ->
      bucket (clock w i) = prevCollectionTimestamp m) ->
   Forall (fun r => db.timestamp r = prevCollectionTimestamp m) rows).
Proof.
  intros Hpc n rows. subst rows. rewrite snapshot_batch by done.
  assert (Hts := stamped_rows_timestamps w (ShareDifficulty (coll m))
                   (map_to_list (PendingStats (coll m))) (reads m)).
  rewrite length_map_to_list in Hts. fold n in Hts. split; [exact Hts|].
  intros Hsame. apply Forall_forall. intros r Hr.
  assert (Hin : db.timestamp r ∈
            map (fun i => bucket (clock w i)) (seq (reads m) n)).
  { rewrite <- Hts. apply list_elem_of_fmap. eauto. }
  apply list_elem_of_fmap in Hin as (i & -> & Hi).
  apply Hsame. apply elem_of_seq in Hi. lia.
Qed.

(** The batch built by a snapshot has one row per worker with an entry in
    the accumulator at that moment: as many rows as entries, no worker
    twice, a row for a worker if and only if it has an entry; and that
    batch is what the flush hands to the database. *)
Lemma snapshot_one_row_per_worker (w : World) (m : Machine) :
  pc m = AtSnapshot ->
  let rows := batch (flusher_step w m) in
  length rows = size (PendingStats (coll m)) /\
  NoDup (map worker_of rows) /\
  (forall k, k ∈ map worker_of rows <-> is_Some (PendingStats (coll m) !! k)) /\
  written (history (exec w [AFlusher; AFlusher; AFlusher] m)) =
    written (history m) ++ rows.
Proof.
  intros Hpc rows. subst rows. rewrite snapshot_batch by done.
  rewrite stamped_rows_length, stamped_rows_workers, length_map_to_list.
  split; [done|]. split; [apply NoDup_fst_map_to_list|]. split.
  - intros k. rewrite list_elem_of_fmap. split.
    + intros ([k' v] & -> & Hin). apply elem_of_map_to_list in Hin. eauto.
    + intros [v Hv]. exists (k, v). split; [done|]. by apply elem_of_map_to_list.
  - cbn [exec fold_left act_step].
    set (m1 := flusher_step w m).
    assert (H1 : pc m1 = AtClear /\ history m1 = history m ++ [SSnapshot (batch m1)]
                 /\ batch m1 = stamped_rows w (ShareDifficulty (coll m)) (reads m)
                                 (map_to_list (PendingStats (coll m)))).
    { subst m1. by rewrite flusher_step_snapshot. }
    destruct H1 as (Hpc1 & Hh1 & Hb1).
    rewrite (flusher_step_write w (flusher_step w m1)),
            (flusher_step_clear w m1) by (by rewrite ?flusher_step_clear).
    cbn [history batch]. rewrite Hh1, Hb1, !written_app.
    unfold written at 2 3 4. simpl. by rewrite !app_nil_r.
Qed.

(** C8: the rows written for a boundary are not one per worker of the
    period.  In the first run [rig1] and [rig2] both call [Record] before
    the accumulator of the period is cleared, [rig2] between the snapshot
    and [Clear]: the flush of boundary 60 writes one row, and neither it
    nor the next flush ever writes a row of [rig2].  In the second run both
    workers are in the snapshot of the flush of boundary 60, and one row
    only carries that boundary, the other being stamped 120. *)
Theorem C8_rows_of_a_boundary_miss_workers :
  let racing := run Examples.world_ok (NewCollector 1000) Examples.racing_new_worker in
  let slow := run Examples.world_slow (NewCollector 1000) Examples.two_rigs in
  history racing !! 0%nat = Some (SRecord Examples.rig1) /\
  (exists rows, history racing !! 4%nat = Some (SSnapshot rows)) /\
  history racing !! 5%nat = Some (SRecord Examples.rig2) /\
  history racing !! 6%nat = Some SClear /\
  triggered (history racing) = [60; 120] /\
  count_steps is_write (history racing) = 2%nat /\
  map (fun r => (worker_of r, db.timestamp r)) (written (history racing))
    = [("rig1", 60)] /\
  PendingStats (coll racing) = ∅ /\
  triggered (history slow) = [60] /\
  map (fun r => (worker_of r, db.timestamp r)) (written (history slow))
    = [("rig1", 60); ("rig2", 120)].
Proof.
  vm_compute. repeat split; try reflexivity. eexists; reflexivity.
Qed.

(** The workers of a period: from an empty accumulator, the calls of
    [Record] of the period, then the snapshot. *)
Lemma records_pc w rs m : pc (exec w (map ARecord rs) m) = pc m.
Proof. revert m. induction rs as [|r rs IH]; intros m; simpl; [done|]. by rewrite IH. Qed.

Lemma records_dom w rs m :
  dom (PendingStats (coll (exec w (map ARecord rs) m))) =
    dom (PendingStats (coll m)) ∪ list_to_set (map r_worker rs).
Proof.
  revert m. induction rs as [|r rs IH]; intros m; simpl.
  - by rewrite union_empty_r_L.
  - rewrite IH. cbn [act_step with_coll coll RecordStat PendingStats].
    rewrite dom_insert_L. apply set_eq. intros x.
    rewrite !elem_of_union, elem_of_singleton. tauto.
Qed.

Lemma period_row_count w rs m :
  pc m = AtSnapshot -> PendingStats (coll m) = ∅ ->
  length (batch (flusher_step w (exec w (map ARecord rs) m))) =
    length (remove_dups (map r_worker rs)).
Proof.
  intros Hpc Hempty.
  rewrite snapshot_batch by (by rewrite records_pc).
  rewrite stamped_rows_length, length_map_to_list.
  rewrite <- (size_dom (D := gset string)), records_dom, Hempty, dom_empty_L, union_empty_l_L.
  rewrite <- (size_list_to_set (C := gset string) (remove_dups (map r_worker rs)))
    by apply NoDup_remove_dups.
  f_equal. apply set_eq. intros x.
  by rewrite !elem_of_list_to_set, elem_of_remove_dups.
Qed.

(** *** The running total *)

Lemma total_inv_step w D m a : total_inv D m -> total_inv D (act_step w m a).
Proof.
  unfold total_inv. intros [HD Hinv].
  act_cases m a; try rewrite Hpc in Hinv; try (split; [assumption|]); try done.
  - subst D. rewrite Hinv. split; [reflexivity|].
    apply elem_of_app. right. by left.
  - destruct Hinv as [Htot Hin]. split; [done|]. apply elem_of_app. by left.
  - destruct Hinv as [Htot Hin]. split; [done|]. apply elem_of_app. by left.
  - by rewrite Hpc.
  - destruct (pc m); try done; destruct Hinv as [Htot Hin];
      (split; [done|]); apply elem_of_app; by left.
  - destruct (pc m); try done; destruct Hinv as [Htot Hin];
      (split; [done|]); apply elem_of_app; by left.
Qed.

Lemma total_inv_run w c acts : total_inv (ShareDifficulty c) (run w c acts).
Proof.
  unfold run. apply exec_invariant; [intros; by apply total_inv_step|].
  by split.
Qed.



(** *** Boundaries *)

Lemma starts_app h1 h2 : starts (h1 ++ h2) = starts h1 ++ starts h2.
Proof. unfold starts. by rewrite map_app, concat_app. Qed.

Lemma default_last_cons (p y : Z) (l : list Z) :
  default p (last (y :: l)) = default y (last l).
Proof. rewrite last_cons. by destruct (last l). Qed.

Lemma changes_snoc l : forall p x,
  changes p (l ++ [x]) =
    changes p l ++ (if default p (last l) =? x then [] else [x]).
Proof.
  induction l as [|y l IH]; intros p x.
  - simpl. by destruct (p =? x).
  - rewrite default_last_cons. simpl. destruct (p =? y) eqn:E.
    + apply Z.eqb_eq in E as ->. apply IH.
    + by rewrite IH.
Qed.

Lemma changes_sub l : forall p b, b ∈ changes p l -> b ∈ l.
Proof.
  induction l as [|y l IH]; intros p b; simpl; [done|].
  destruct (p =? y).
  - intros H. right. eauto.
  - intros [->|H]%elem_of_cons; [by left | right; eauto].
Qed.

Lemma changes_complete l : forall p b, b ∈ l -> b <> p -> b ∈ changes p l.
Proof.
  induction l as [|y l IH]; intros p b; simpl.
  - by intros ?%elem_of_nil.
  - intros [->|H]%elem_of_cons Hne.
    + destruct (p =? y) eqn:E; [apply Z.eqb_eq in E; congruence | by left].
    + destruct (p =? y) eqn:E; [by apply IH|].
      destruct (decide (b = y)) as [->|Hby]; [by left | right; by apply IH].
Qed.

Lemma changes_above l : forall p,
  StronglySorted Z.le (p :: l) -> Forall (Z.lt p) (changes p l).
Proof.
  induction l as [|y l IH]; intros p Hs; simpl; [constructor|].
  apply StronglySorted_inv in Hs as [Hs Hall].
  apply StronglySorted_inv in Hs as Hyl. destruct Hyl as [Hl Hy].
  apply Forall_cons in Hall as [Hpy Hpl].
  destruct (p =? y) eqn:E.
  - apply IH. constructor; assumption.
  - apply Z.eqb_neq in E. constructor; [lia|].
    eapply Forall_impl; [apply IH; by constructor|].
    simpl. intros; lia.
Qed.

Lemma changes_increasing l : forall p,
  StronglySorted Z.le (p :: l) -> StronglySorted Z.lt (p :: changes p l).
Proof.
  induction l as [|y l IH]; intros p Hs; simpl.
  - repeat constructor.
  - pose proof (changes_above _ _ Hs) as Habove. simpl in Habove.
    apply StronglySorted_inv in Hs as [Hs Hall].
    apply Forall_cons in Hall as [Hpy Hpl].
    destruct (p =? y) eqn:E.
    + apply Z.eqb_eq in E as ->. by apply IH.
    + constructor; [by apply IH | assumption].
Qed.

Lemma buckets_sorted l :
  StronglySorted Z.le l -> StronglySorted Z.le (map bucket l).
Proof.
  induction 1 as [|x l Hs IH Hall]; simpl; constructor; [assumption|].
  apply Forall_fmap. eapply Forall_impl; [exact Hall|].
  intros y Hy. by apply bucket_mono.
Qed.

Lemma poll_inv_step w m a : poll_inv m -> poll_inv (act_step w m a).
Proof.
  unfold poll_inv. intros Hinv.
  act_cases m a;
    rewrite ?starts_app, ?polled_app, ?triggered_app;
    cbn [starts polled triggered map concat app]; rewrite ?app_nil_r;
    destruct (starts (history m)) as [|t0 rest];
    try (destruct Hinv as (Hrest & Hpc' & Htrig & Hprev));
    try (destruct Hinv as (Hpc' & Hpoll & Htrig));
    try congruence;
    try (repeat split; (assumption || discriminate)).
  - cbn [app]. rewrite Hpoll, Htrig. repeat split. discriminate.
  - repeat split; try (assumption || discriminate).
    + rewrite map_app. cbn [map]. rewrite changes_snoc, <- Hprev, Hsame, app_nil_r.
      assumption.
    + rewrite map_app. cbn [map]. rewrite last_snoc. simpl.
      by apply Z.eqb_eq.
  - repeat split; try (assumption || discriminate).
    + rewrite map_app. cbn [map]. rewrite changes_snoc, <- Hprev, Hsame.
      by rewrite Htrig.
    + rewrite map_app. cbn [map]. by rewrite last_snoc.
  - rewrite Hpc. by repeat split.
Qed.

Lemma poll_inv_run w c acts : poll_inv (run w c acts).
Proof.
  unfold run. apply exec_invariant; [intros; by apply poll_inv_step|].
  unfold poll_inv. by simpl.
Qed.

Lemma changes_same l p : Forall (fun b => b = p) l -> changes p l = [].
Proof.
  induction 1 as [|y l -> _ IH]; simpl; [done|]. by rewrite Z.eqb_refl.
Qed.

(** For any clock: in a run whose start read the clock at [t0], the flushes
    started are the changes of bucket from one poll to the next, the bucket
    of [t0] being before the first poll.  With a clock that does not go
    back they are strictly increasing, and they are the buckets that some
    poll saw and that are not the bucket of the start. *)
Lemma flushes_are_bucket_changes (w : World) (c : Collector) (acts : list Act) (t0 : Z) :
  let h := history (run w c acts) in
  started h = Some t0 ->
  triggered h = changes (bucket t0) (map bucket (polled h)) /\
  (Forall (fun t => bucket t = bucket t0) (polled h) -> triggered h = []) /\
  (StronglySorted Z.le (t0 :: polled h) ->
   StronglySorted Z.lt (bucket t0 :: triggered h) /\
   forall b, b ∈ triggered h <->
             b <> bucket t0 /\ exists t, t ∈ polled h /\ bucket t = b).
Proof.
  intros h Hstart. pose proof (poll_inv_run w c acts) as Hinv.
  unfold poll_inv in Hinv. fold h in Hinv. unfold started in Hstart.
  destruct (starts h) as [|t rest]; [discriminate|].
  injection Hstart as ->. destruct Hinv as (_ & _ & Htrig & _).
  split; [exact Htrig|]. split.
  - intros Hall. rewrite Htrig. apply changes_same. by apply Forall_fmap.
  - intros Hsorted. apply buckets_sorted in Hsorted. cbn [map] in Hsorted.
    rewrite Htrig. split; [by apply changes_increasing|].
    intros b. split.
    + intros Hb. split.
      * pose proof (changes_above _ _ Hsorted) as Habove.
        rewrite Forall_forall in Habove. specialize (Habove b Hb). lia.
      * apply changes_sub in Hb. apply list_elem_of_fmap in Hb as (t & -> & Ht).
        eauto.
    + intros (Hne & t & Ht & <-). apply changes_complete; [|done].
      apply list_elem_of_fmap. eauto.
Qed.

(** *** One flush, one write, one prune *)

Lemma count_steps_snoc f h s :
  count_steps f (h ++ [s]) = (count_steps f h + if f s then 1 else 0)%nat.
Proof.
  unfold count_steps. rewrite List.filter_app, length_app. simpl.
  by destruct (f s).
Qed.

Lemma flush_calls_step w m a :
  (count_steps is_write (history m) + writes_due (pc m))%nat
    = length (triggered (history m)) /\
  (count_steps is_prune (history m) + prunes_due (pc m))%nat
    = length (triggered (history m)) ->
  let m' := act_step w m a in
  (count_steps is_write (history m') + writes_due (pc m'))%nat
    = length (triggered (history m')) /\
  (count_steps is_prune (history m') + prunes_due (pc m'))%nat
    = length (triggered (history m')).
Proof.
  intros [Hw Hp] m'. subst m'.
  act_cases m a; try rewrite Hpc in Hw, Hp;
    rewrite ?count_steps_snoc, ?triggered_app, ?length_app;
    cbn [is_write is_prune triggered map concat app length writes_due prunes_due in_flush]
      in *;
    try lia.
  rewrite Hpc. cbn [writes_due prunes_due in_flush]. lia.
Qed.

Lemma flush_calls_run w c acts :
  let m := run w c acts in
  (count_steps is_write (history m) + writes_due (pc m))%nat
    = length (triggered (history m)) /\
  (count_steps is_prune (history m) + prunes_due (pc m))%nat
    = length (triggered (history m)).
Proof.
  unfold run.
  apply (exec_invariant w (fun m =>
    (count_steps is_write (history m) + writes_due (pc m))%nat
      = length (triggered (history m)) /\
    (count_steps is_prune (history m) + prunes_due (pc m))%nat
      = length (triggered (history m)))).
  - intros m a H. by apply flush_calls_step.
  - by split.
Qed.

(** *** Failures of the database *)

Lemma forget_forget m : forget (forget m) = forget m.
Proof.
  unfold forget. simpl. f_equal. rewrite <- list_fmap_compose.
  apply list_fmap_ext. by intros ? [].
Qed.

Lemma logs_forget h : logs (map forget_err h) = logs h.
Proof.
  unfold logs. f_equal. rewrite <- list_fmap_compose.
  apply list_fmap_ext. by intros ? [].
Qed.

(** A step of a run depends on the results of the database only through
    the results recorded in the history. *)
Lemma forget_step clk f1 f2 m1 m2 a :
  forget m1 = forget m2 ->
  forget (act_step {| clock := clk; db_fails := f1 |} m1 a) =
  forget (act_step {| clock := clk; db_fails := f2 |} m2 a).
Proof.
  intros H. pose proof H as H'. injection H' as Hc Hp Hprev Htot Hb Hr Hd Hh.
  destruct a as [|r|]; cbn [act_step].
  - unfold flusher_step. rewrite <- Hp, <- Hc, <- Hprev, <- Htot, <- Hb, <- Hr, <- Hd.
    cbn [clock db_fails].
    destruct (pc m1); try by (unfold forget; simpl; rewrite !map_app, Hh).
    + destruct (Done (coll m1)); [by (unfold forget; simpl; rewrite !map_app, Hh)|].
      destruct (_ =? _); by (unfold forget; simpl; rewrite !map_app, Hh).
    + rewrite !collect_eq.
      rewrite (stamped_rows_clock {| clock := clk; db_fails := f1 |}
                 {| clock := clk; db_fails := f2 |}) by done.
      by (unfold forget; simpl; rewrite !map_app, Hh).
    + exact H.
  - unfold forget, with_coll. simpl. by rewrite !map_app, Hc, Hp, Hprev, Htot, Hb, Hr, Hd, Hh.
  - unfold forget, with_coll. simpl. by rewrite !map_app, Hc, Hp, Hprev, Htot, Hb, Hr, Hd, Hh.
Qed.

Lemma forget_exec clk f1 f2 acts : forall m1 m2,
  forget m1 = forget m2 ->
  forget (exec {| clock := clk; db_fails := f1 |} acts m1) =
  forget (exec {| clock := clk; db_fails := f2 |} acts m2).
Proof.
  induction acts as [|a acts IH]; intros m1 m2 H; simpl; [done|].
  apply IH. by apply forget_step.
Qed.

(** C4, as the specification states it, fails: with a database whose every
    call fails, the log of a run is the log of the same run with a database
    that never fails: nothing about the failures is logged. *)
Lemma C4_counterexample :
  let failing := history (run Examples.world_failing (NewCollector 1000) Examples.one_period) in
  let ok := history (run Examples.world_ok (NewCollector 1000) Examples.one_period) in
  List.filter db_failure failing <> [] /\
  logs failing = logs ok /\
  map log_msg (logs failing) = ["Started Stats Collector"; "Successfully collected data"].
Proof. vm_compute. repeat split; congruence. Qed.

(** C4, amended: the results of [DB.Write] and [PruneStats] are dropped
    without a log line and without a retry: two runs that differ only in
    which database calls fail go through the same sections, make the same
    database calls, log the same lines and end in the same state, so every
    later boundary is flushed as after a success; each flush started
    calls [DB.Write] once and [PruneStats] once, whatever they return. *)
Theorem C4_database_failures_are_ignored
    (clk : nat -> Z) (fails1 fails2 : nat -> bool) (c : Collector) (acts : list Act) :
  let m1 := run {| clock := clk; db_fails := fails1 |} c acts in
  let m2 := run {| clock := clk; db_fails := fails2 |} c acts in
  coll m1 = coll m2 /\ pc m1 = pc m2 /\
  prevCollectionTimestamp m1 = prevCollectionTimestamp m2 /\
  totalCollectedHashrate m1 = totalCollectedHashrate m2 /\
  batch m1 = batch m2 /\
  map forget_err (history m1) = map forget_err (history m2) /\
  logs (history m1) = logs (history m2) /\
  (count_steps is_write (history m1) + writes_due (pc m1))%nat
    = length (triggered (history m1)) /\
  (count_steps is_prune (history m1) + prunes_due (pc m1))%nat
    = length (triggered (history m1)).
Proof.
  intros m1 m2.
  assert (H : forget m1 = forget m2) by (by apply forget_exec).
  injection H as Hc Hp Hprev Htot Hb Hr Hd Hh.
  repeat split; try assumption.
  - by rewrite <- (logs_forget (history m1)), Hh, logs_forget.
  - apply flush_calls_run.
  - apply flush_calls_run.
Qed.

(** *** Cancellation *)

Lemma Stop_idempotent c : Stop (Stop c) = Stop c.
Proof. reflexivity. Qed.

Lemma flusher_turns_cons a acts :
  flusher_turns (a :: acts) = ((if is_flusher a then 1 else 0) + flusher_turns acts)%nat.
Proof. unfold flusher_turns. simpl. by destruct (is_flusher a). Qed.

Lemma done_step w m a : Done (coll m) = true -> Done (coll (act_step w m a)) = true.
Proof. intros H. act_cases m a; done. Qed.

(** Once the context is cancelled the loop polls no more. *)
Lemma cancelled_no_poll w acts : forall m,
  Done (coll m) = true ->
  polled (history (exec w acts m)) = polled (history m).
Proof.
  induction acts as [|a acts IH]; intros m Hcancel; simpl; [done|].
  rewrite IH by (by apply done_step).
  act_cases m a; rewrite ?polled_app; cbn [polled map concat app];
    rewrite ?app_nil_r; try done; try congruence.
Qed.

Lemma returned_stays w acts : forall m,
  pc m = Returned -> pc (exec w acts m) = Returned.
Proof.
  induction acts as [|a acts IH]; intros m Hret; simpl; [done|].
  apply IH. destruct a; simpl; [unfold flusher_step; by rewrite Hret | done | done].
Qed.

(** Once the context is cancelled the loop returns at its first [select]. *)
Lemma cancelled_returns w acts : forall m,
  Done (coll m) = true ->
  pc m = Returned \/ (sections_left (pc m) < flusher_turns acts)%nat ->
  pc (exec w acts m) = Returned.
Proof.
  induction acts as [|a acts IH]; intros m Hcancel [Hret|Hturns];
    try (by apply returned_stays).
  - unfold flusher_turns in Hturns. simpl in Hturns. lia.
  - simpl. rewrite flusher_turns_cons in Hturns.
    apply IH; [by apply done_step|]. revert Hturns.
    act_cases m a; cbn [is_flusher sections_left]; intros Hturns;
      try congruence; try (right; lia); try (by left).
Qed.

(** A cancelled loop finishes the flush it is in, and starts no other. *)
Lemma cancelled_flush_completes w acts : forall m,
  Done (coll m) = true ->
  (sections_left (pc m) <= flusher_turns acts)%nat ->
  count_steps is_write (history (exec w acts m))
    = (count_steps is_write (history m) + writes_due (pc m))%nat /\
  count_steps is_prune (history (exec w acts m))
    = (count_steps is_prune (history m) + prunes_due (pc m))%nat.
Proof.
  induction acts as [|a acts IH]; intros m Hcancel Hturns.
  - unfold flusher_turns in Hturns. simpl in *.
    destruct (pc m); cbn [sections_left writes_due prunes_due in_flush] in *; lia.
  - simpl. rewrite flusher_turns_cons in Hturns.
    specialize (IH (act_step w m a) (done_step w m a Hcancel)).
    revert IH.
    act_cases m a; cbn [is_flusher] in Hturns; try rewrite Hpc in Hturns;
      cbn [sections_left] in *; try congruence;
      rewrite ?count_steps_snoc;
      cbn [is_write is_prune writes_due prunes_due in_flush];
      intros IH; try (destruct IH as [-> ->]; [lia | lia]).
    rewrite Hpc in IH. cbn [sections_left writes_due prunes_due in_flush] in IH.
    apply IH. lia.
Qed.

(** C9: [Stop] only sets the cancellation, and setting it twice is setting
    it once.  From any place of the loop, after a call of [Stop] and under
    any interleaving: the loop polls no more (no further sleep, no new
    flush); it returns at its first [select], which is its next section
    when it is idle; and a flush in progress makes the calls of [DB.Write]
    and [PruneStats] it still had to make. *)
Theorem C9_stop_between_iterations (w : World) (m : Machine) (acts : list Act) :
  let m' := exec w (AStop :: acts) m in
  Stop (Stop (coll m)) = Stop (coll m) /\
  polled (history m') = polled (history m) /\
  ((sections_left (pc m) < flusher_turns acts)%nat -> pc m' = Returned) /\
  ((sections_left (pc m) <= flusher_turns acts)%nat ->
   count_steps is_write (history m')
     = (count_steps is_write (history m) + writes_due (pc m))%nat /\
   count_steps is_prune (history m')
     = (count_steps is_prune (history m) + prunes_due (pc m))%nat).
Proof.
  intros m'. subst m'. cbn [exec fold_left act_step].
  change (fold_left (act_step w) acts (with_coll Stop SStop m))
    with (exec w acts (with_coll Stop SStop m)).
  split; [reflexivity|]. split; [|split].
  - rewrite cancelled_no_poll by reflexivity.
    cbn [with_coll history]. rewrite polled_app. cbn. by rewrite app_nil_r.
  - intros H. apply cancelled_returns; [reflexivity | by right].
  - intros H.
    destruct (cancelled_flush_completes w acts (with_coll Stop SStop m)) as [Hw Hp];
      [reflexivity | exact H |].
    rewrite Hw, Hp. cbn [with_coll history pc]. rewrite !count_steps_snoc.
    cbn [is_write is_prune]. lia.
Qed.

Lemma C9_stop_between_iterations_witness :
  let m := run Examples.world_ok (NewCollector 1000)
             (ARecord Examples.rig1 :: Examples.turns 5) in
  let m' := exec Examples.world_ok (AStop :: Examples.turns 5) m in
  pc m = AtWrite /\
  pc m' = Returned /\
  count_steps is_prune (history m') = 1%nat.
Proof.
  split; [reflexivity|].
  pose proof (C9_stop_between_iterations Examples.world_ok
                (run Examples.world_ok (NewCollector 1000)
                   (ARecord Examples.rig1 :: Examples.turns 5))
                (Examples.turns 5)) as (_ & _ & Hret & Hflush).
  split.
  - apply Hret. vm_compute. lia.
  - apply Hflush. vm_compute. lia.
Defined.

(** ** Further properties of the code *)

(** *** [Init] and [Clear] *)

(** X1: [Clear], which deletes the keys one by one, leaves what [Init]
    leaves with its fresh map: an empty accumulator, the difficulty and
    the context as they were; so [Clear] twice is [Clear] once. *)
Theorem X1_Clear_is_Init (c : Collector) :
  Clear c = Init c /\
  PendingStats (Clear c) = ∅ /\
  ShareDifficulty (Clear c) = ShareDifficulty c /\
  Done (Clear c) = Done c /\
  Clear (Clear c) = Clear c.
Proof.
  unfold Clear, Init. cbn [PendingStats ShareDifficulty Done].
  rewrite !clear_map_empty. repeat split; reflexivity.
Qed.

(** *** The bucket of a clock value *)

Lemma bucket_rem now : bucket now = now - Z.rem now statCollectionPeriodSecs.
Proof.
  unfold bucket, statCollectionPeriodSecs.
  pose proof (Z.quot_rem' now 60). lia.
Qed.

Lemma rem60_bounds now :
  (0 <= now -> 0 <= Z.rem now 60 < 60 /\ Z.rem now 60 <= now) /\
  (now <= 0 -> -60 < Z.rem now 60 <= 0 /\ now <= Z.rem now 60).
Proof.
  split; intros H.
  - split; [apply Z.rem_bound_pos; lia | apply Z.rem_le; lia].
  - replace now with (- (- now)) by lia. rewrite Z.rem_opp_l by lia.
    pose proof (Z.rem_bound_pos (- now) 60).
    pose proof (Z.rem_le (- now) 60). lia.
Qed.

(** X2: the bucket of a clock value is the value less the remainder of Go's
    truncating division: it is within 59 seconds of the value, on the side
    of zero (so before the value from 1970 on, and after it for a negative
    clock), never larger in magnitude, and the bucket of a bucket is
    itself. *)
Theorem X2_bucket_truncates (now : Z) :
  bucket now = now - Z.rem now statCollectionPeriodSecs /\
  Z.abs (now - bucket now) < statCollectionPeriodSecs /\
  Z.abs (bucket now) <= Z.abs now /\
  0 <= now * bucket now /\
  bucket (bucket now) = bucket now.
Proof.
  split; [apply bucket_rem|].
  pose proof (bucket_rem now) as Hb. unfold statCollectionPeriodSecs in *.
  destruct (rem60_bounds now) as [Hpos Hneg].
  split; [|split; [|split]].
  - destruct (Z.le_ge_cases 0 now); [specialize (Hpos ltac:(lia)) | specialize (Hneg ltac:(lia))]; lia.
  - destruct (Z.le_ge_cases 0 now); [specialize (Hpos ltac:(lia)) | specialize (Hneg ltac:(lia))]; lia.
  - destruct (Z.le_ge_cases 0 now); [specialize (Hpos ltac:(lia)) | specialize (Hneg ltac:(lia))]; nia.
  - unfold bucket, statCollectionPeriodSecs. by rewrite Z.quot_mul by lia.
Qed.

(** *** The end of the loop *)

Lemma returned_cancelled_step w m a :
  (pc m = Returned -> Done (coll m) = true) ->
  pc (act_step w m a) = Returned -> Done (coll (act_step w m a)) = true.
Proof.
  intros Hinv. act_cases m a; try discriminate; try done.
  by rewrite Hpc.
Qed.

Lemma not_cancelled_exec w acts : forall m,
  Done (coll m) = false -> Forall (fun a => is_stop a = false) acts ->
  Done (coll (exec w acts m)) = false.
Proof.
  induction acts as [|a acts IH]; intros m Hnot Hall; simpl; [done|].
  apply Forall_cons in Hall as [Ha Hall]. apply IH; [|done].
  revert Ha. act_cases m a; try done.
Qed.

(** X3: the loop returns only when the context is cancelled: in any run,
    once [Run] has returned the context is cancelled, and a run on a
    collector that is not cancelled, in which [Stop] is never called, never
    returns. *)
Theorem X3_returns_only_when_cancelled (w : World) (c : Collector) (acts : list Act) :
  let m := run w c acts in
  (pc m = Returned -> Done (coll m) = true) /\
  (Done c = false -> Forall (fun a => is_stop a = false) acts -> pc m <> Returned).
Proof.
  intros m.
  assert (H : pc m = Returned -> Done (coll m) = true).
  { subst m. unfold run.
    apply (exec_invariant w (fun m => pc m = Returned -> Done (coll m) = true)).
    - intros m a Hinv. by apply returned_cancelled_step.
    - discriminate. }
  split; [exact H|].
  intros Hnot Hall Hret. specialize (H Hret).
  subst m. unfold run in H. rewrite not_cancelled_exec in H; done.
Qed.

Lemma X3_returns_only_when_cancelled_witness :
  pc (run Examples.world_ok (NewCollector 1000) (Examples.turns 20)) <> Returned.
Proof.
  apply (X3_returns_only_when_cancelled Examples.world_ok (NewCollector 1000)
           (Examples.turns 20)).
  - reflexivity.
  - vm_compute. repeat constructor.
Defined.

(** *** The log *)

Lemma log_msgs_snoc h s :
  map log_msg (logs (h ++ [s])) = map log_msg (logs h) ++ map log_msg (log_of s).
Proof. rewrite logs_app, map_app. unfold logs at 2. simpl. by rewrite app_nil_r. Qed.

Lemma log_inv_step w m a : log_inv m -> log_inv (act_step w m a).
Proof.
  unfold log_inv. intros Hinv.
  act_cases m a; try rewrite Hpc in Hinv;
    rewrite ?log_msgs_snoc, ?triggered_app, ?length_app;
    cbn [log_of map app triggered concat length logs_due log_msg success_entry];
    rewrite ?app_nil_r;
    try (destruct Hinv as (k & Hk & Hl); exists k;
         split; [simpl in *; lia | exact Hl]).
  - destruct Hinv as [Hl Ht]. exists 0%nat. rewrite Hl, Ht. split; reflexivity.
  - destruct Hinv as (k & Hk & Hl). exists k. split; [simpl in *; lia|].
    rewrite Hl. cbn [expected_log]. by rewrite !app_nil_r.
  - destruct Hinv as (k & Hk & Hl). exists (S k). split; [simpl in *; lia|].
    rewrite Hl. cbn [expected_log repeat]. rewrite !app_nil_r.
    cbn [app]. f_equal. by rewrite repeat_cons.
  - by rewrite Hpc.
  - destruct (pc m);
      [ destruct Hinv as [Hl Ht]; rewrite logs_app, Hl; by split
      | destruct Hinv as (k & Hk & Hl); exists k;
        split; [simpl in *; lia | exact Hl] .. ].
  - destruct (pc m);
      [ destruct Hinv as [Hl Ht]; rewrite logs_app, Hl; by split
      | destruct Hinv as (k & Hk & Hl); exists k;
        split; [simpl in *; lia | exact Hl] .. ].
Qed.

Lemma log_inv_run w c acts : log_inv (run w c acts).
Proof.
  unfold run. apply exec_invariant; [intros; by apply log_inv_step|].
  by split.
Qed.

Lemma log_shape_run w c acts :
  map log_msg (logs (history (run w c acts))) =
    expected_log (pc (run w c acts))
      (length (triggered (history (run w c acts))) - logs_due (pc (run w c acts))).
Proof.
  pose proof (log_inv_run w c acts) as Hinv. unfold log_inv in Hinv.
  destruct (pc (run w c acts));
    try (destruct Hinv as (k & Hk & ->); f_equal; simpl in *; lia).
  destruct Hinv as [-> _]. reflexivity.
Qed.

(** X5: in any run the log is the start line, then one success line for
    each flush started except the one still on its way to its log, then
    the stop line if [Run] has returned, and nothing else. *)
Theorem X5_log_shape (w : World) (c : Collector) (acts : list Act) :
  let m := run w c acts in
  map log_msg (logs (history m)) =
    expected_log (pc m) (length (triggered (history m)) - logs_due (pc m)).
Proof. apply log_shape_run. Qed.

(** *** [Stop] before [Run] *)

Lemma no_write_no_row h : count_steps is_write h = 0%nat -> written h = [].
Proof.
  unfold count_steps, written. induction h as [|s h IH]; simpl; [done|].
  destruct s; simpl; try exact IH. discriminate.
Qed.

Lemma no_poll_no_flush w c acts :
  polled (history (run w c acts)) = [] -> triggered (history (run w c acts)) = [].
Proof.
  intros Hp. pose proof (poll_inv_run w c acts) as Hinv. unfold poll_inv in Hinv.
  destruct (starts _); [by destruct Hinv as (_ & _ & ?)|].
  destruct Hinv as (_ & _ & -> & _). by rewrite Hp.
Qed.

(** X6: when the context is already cancelled as [Run] is called, [Run]
    logs its start, returns at its first [select] and logs its stop: it
    polls nothing, starts no flush and never calls the database, whatever
    is in the accumulator. *)
Theorem X6_cancelled_before_start (w : World) (c : Collector) (acts : list Act) :
  Done c = true -> (2 <= flusher_turns acts)%nat ->
  let h := history (run w c acts) in
  pc (run w c acts) = Returned /\
  polled h = [] /\ triggered h = [] /\ written h = [] /\
  count_steps is_prune h = 0%nat /\
  map log_msg (logs h) = ["Started Stats Collector"; "Stopped Stats Collector"].
Proof.
  intros Hcancel Hturns h.
  assert (Hret : pc (run w c acts) = Returned).
  { unfold run. apply cancelled_returns; [done|]. right. simpl. lia. }
  assert (Hp : polled h = []).
  { subst h. unfold run. by rewrite cancelled_no_poll. }
  assert (Ht : triggered h = []) by (by apply no_poll_no_flush).
  destruct (flush_calls_run w c acts) as [Hw Hpr]. fold h in Hw, Hpr.
  rewrite Hret, Ht in Hw, Hpr. simpl in Hw, Hpr.
  repeat split; try done.
  - apply no_write_no_row. lia.
  - lia.
  - subst h. rewrite log_shape_run, Hret, Ht. reflexivity.
Qed.

Lemma X6_cancelled_before_start_witness :
  written (history (run Examples.world_ok
                      (Stop (RecordStat Examples.rig1 (NewCollector 1000)))
                      (Examples.turns 9))) = [].
Proof.
  apply (X6_cancelled_before_start Examples.world_ok
           (Stop (RecordStat Examples.rig1 (NewCollector 1000))) (Examples.turns 9)).
  - reflexivity.
  - vm_compute. lia.
Defined.

(** *** The rows and the entries *)

Lemma stamped_rows_stats w D es n :
  map db.stat (stamped_rows w D n es) = map (stat_of D) es.
Proof. revert n. induction es as [|e es IH]; intros; simpl; [done|]. by rewrite IH. Qed.

Lemma stat_of_inj D e1 e2 : stat_of D e1 = stat_of D e2 -> e1 = e2.
Proof.
  destruct e1 as [k1 [v1 s1 i1 r1 a1]], e2 as [k2 [v2 s2 i2 r2 a2]].
  unfold stat_of. simpl. intros H. injection H as -> -> -> -> -> _ ->. reflexivity.
Qed.

(** X7: the batch of a snapshot is a faithful copy of the accumulator: a
    worker has the entry [p] if and only if the batch holds the row made of
    its name, the three counters, the reported hashrate and the address of
    [p]; nothing of an entry is dropped or changed on the way to its row. *)
Theorem X7_rows_copy_entries (w : World) (m : Machine) (k : string) (p : PendingStat) :
  pc m = AtSnapshot ->
  PendingStats (coll m) !! k = Some p <->
  exists r, r ∈ batch (flusher_step w m) /\
            db.WorkerName (db.stat r) = k /\
            db.ValidShareCount (db.stat r) = ValidShares p /\
            db.StaleShareCount (db.stat r) = StaleShares p /\
            db.InvalidShareCount (db.stat r) = InvalidShares p /\
            db.ReportedHashrate (db.stat r) = ReportedHashrate p /\
            db.IPAddress (db.stat r) = IPAddress p.
Proof.
  intros Hpc. rewrite snapshot_batch by done.
  set (D := ShareDifficulty (coll m)). set (es := map_to_list (PendingStats (coll m))).
  assert (Hstats := stamped_rows_stats w D es (reads m)).
  split.
  - intros Hk. apply elem_of_map_to_list in Hk. fold es in Hk.
    assert (Hin : stat_of D (k, p) ∈ map db.stat (stamped_rows w D (reads m) es)).
    { rewrite Hstats. apply list_elem_of_fmap. eauto. }
    apply list_elem_of_fmap in Hin as (r & Hr & Hin).
    exists r. split; [done|]. rewrite <- Hr. by repeat split.
  - intros (r & Hin & Hk & Hv & Hs & Hi & Hr & Ha).
    assert (Hin' : db.stat r ∈ map (stat_of D) es).
    { rewrite <- Hstats. apply list_elem_of_fmap. eauto. }
    apply list_elem_of_fmap in Hin' as ([k' p'] & Heq & Hin').
    apply elem_of_map_to_list in Hin'.
    rewrite Heq in Hk, Hv, Hs, Hi, Hr, Ha. simpl in *. subst k'.
    destruct p, p'. simpl in *. by subst.
Qed.

Lemma X7_rows_copy_entries_witness :
  let m := run Examples.world_ok (NewCollector 1000)
             (ARecord Examples.rig1 :: Examples.turns 3) in
  exists r, r ∈ batch (flusher_step Examples.world_ok m) /\
            db.WorkerName (db.stat r) = "rig1" /\
            db.ValidShareCount (db.stat r) = 10.
Proof.
  intros m.
  destruct (proj1 (X7_rows_copy_entries Examples.world_ok m "rig1"
                     (merge_stat Examples.rig1 None) eq_refl) eq_refl)
    as (r & Hin & Hk & Hv & _).
  exists r. repeat split; assumption.
Defined.

(** *** A flush with nothing to flush *)

(** X8: when a boundary is crossed with an empty accumulator the flush is
    made all the same: without reading the clock again, [Run] hands an
    empty batch to [DB.Write], logs a total of zero, calls [PruneStats]
    with the horizon of one day, and is back at its [select]. *)
Theorem X8_empty_flush (w : World) (c : Collector) (acts : list Act) :
  let m := run w c acts in
  pc m = AtSnapshot -> PendingStats (coll m) = ∅ ->
  let m' := exec w (repeat AFlusher 5) m in
  history m' =
    history m ++
      [ SSnapshot []; SClear; SWrite [] (db_fails w (db_calls m));
        SLog {| log_msg := "Successfully collected data";
                log_hashrate := Some (S754_zero false) |};
        SPrune 86400 (db_fails w (S (db_calls m))) ] /\
  pc m' = AtSelect /\ reads m' = reads m /\ PendingStats (coll m') = ∅.
Proof.
  intros m Hpc Hempty m'.
  destruct (total_inv_run w c acts) as [_ Hinv]. fold m in Hinv.
  rewrite Hpc in Hinv. subst m'. cbn [repeat exec fold_left act_step].
  set (m1 := flusher_step w m).
  assert (H1 : pc m1 = AtClear /\ history m1 = history m ++ [SSnapshot []] /\
               batch m1 = [] /\ totalCollectedHashrate m1 = F64.zero /\
               reads m1 = reads m /\ db_calls m1 = db_calls m).
  { subst m1. rewrite flusher_step_snapshot by done.
    rewrite Hempty, map_to_list_empty. simpl. rewrite Hinv.
    repeat split. lia. }
  destruct H1 as (Hpc1 & Hh1 & Hb1 & Ht1 & Hr1 & Hd1).
  set (m2 := flusher_step w m1).
  assert (H2 : pc m2 = AtWrite /\ history m2 = history m1 ++ [SClear] /\
               batch m2 = batch m1 /\
               totalCollectedHashrate m2 = totalCollectedHashrate m1 /\
               reads m2 = reads m1 /\ db_calls m2 = db_calls m1 /\
               PendingStats (coll m2) = ∅).
  { subst m2. rewrite flusher_step_clear by done. repeat split.
    apply clear_map_empty. }
  destruct H2 as (Hpc2 & Hh2 & Hb2 & Ht2 & Hr2 & Hd2 & He2).
  set (m3 := flusher_step w m2).
  assert (H3 : pc m3 = AtLog /\
               history m3 = history m2 ++ [SWrite (batch m2) (db_fails w (db_calls m2))] /\
               totalCollectedHashrate m3 = totalCollectedHashrate m2 /\
               reads m3 = reads m2 /\ db_calls m3 = S (db_calls m2) /\
               coll m3 = coll m2).
  { subst m3. by rewrite flusher_step_write. }
  destruct H3 as (Hpc3 & Hh3 & Ht3 & Hr3 & Hd3 & Hc3).
  set (m4 := flusher_step w m3).
  assert (H4 : pc m4 = AtPrune /\
               history m4 =
                 history m3 ++ [SLog (success_entry (totalCollectedHashrate m3))] /\
               reads m4 = reads m3 /\ db_calls m4 = db_calls m3 /\
               coll m4 = coll m3).
  { subst m4. by rewrite flusher_step_log. }
  destruct H4 as (Hpc4 & Hh4 & Hr4 & Hd4 & Hc4).
  rewrite flusher_step_prune by done.
  cbn [coll pc reads history].
  rewrite Hh4, Hh3, Hh2, Hh1, Hd4, Hd3, Hd2, Hd1, Ht3, Ht2, Ht1, Hb2, Hb1,
          Hr4, Hr3, Hr2, Hr1, Hc4, Hc3, He2.
  rewrite <- !app_assoc. by repeat split.
Qed.

Lemma X8_empty_flush_witness :
  let m := run Examples.world_ok (NewCollector 1000) (Examples.turns 3) in
  pc m = AtSnapshot /\
  pc (exec Examples.world_ok (repeat AFlusher 5) m) = AtSelect.
Proof.
  split; [reflexivity|].
  apply (X8_empty_flush Examples.world_ok (NewCollector 1000) (Examples.turns 3));
    reflexivity.
Defined.

(** *** The marker of the previous boundary *)

Lemma default_last_buckets (t0 : Z) (l : list Z) :
  default (bucket t0) (last (map bucket l)) = bucket (default t0 (last l)).
Proof.
  revert t0. induction l as [|x l IH]; intros t0; [done|].
  cbn [map]. rewrite !default_last_cons. apply IH.
Qed.

(** X9: between two sections of a started run, [prevCollectionTimestamp]
    is the bucket of the last value the loop head read from the clock, or
    of the value read at the start when the loop has not polled yet; it is
    never changed by a flush, by [Record] or by [Stop], and it is always a
    multiple of the period. *)
Theorem X9_marker_is_last_bucket (w : World) (c : Collector) (acts : list Act) (t0 : Z) :
  let m := run w c acts in
  started (history m) = Some t0 ->
  prevCollectionTimestamp m = bucket (default t0 (last (polled (history m)))) /\
  prevCollectionTimestamp m mod statCollectionPeriodSecs = 0.
Proof.
  intros m Hstart. pose proof (poll_inv_run w c acts) as Hinv.
  unfold poll_inv in Hinv. fold m in Hinv. unfold started in Hstart.
  destruct (starts (history m)) as [|t rest]; [discriminate|].
  injection Hstart as ->. destruct Hinv as (_ & _ & _ & Hprev).
  rewrite default_last_buckets in Hprev. rewrite Hprev.
  split; [reflexivity | apply bucket_multiple].
Qed.

Lemma X9_marker_is_last_bucket_witness :
  prevCollectionTimestamp (run Examples.world_ok (NewCollector 1000) Examples.racing)
    = bucket 125.
Proof.
  apply (X9_marker_is_last_bucket Examples.world_ok (NewCollector 1000)
           Examples.racing 30).
  reflexivity.
Defined.

(** *** Rows and the boundary of their flush *)

Lemma snapshot_after_poll_step w m a :
  (pc m = AtSnapshot ->
   exists i, reads m = S i /\ prevCollectionTimestamp m = bucket (clock w i)) ->
  pc (act_step w m a) = AtSnapshot ->
  exists i, reads (act_step w m a) = S i /\
            prevCollectionTimestamp (act_step w m a) = bucket (clock w i).
Proof.
  intros Hinv. act_cases m a; try discriminate; try exact Hinv.
  - intros _. eauto.
  - by rewrite Hpc.
Qed.

Lemma snapshot_after_poll w c acts :
  pc (run w c acts) = AtSnapshot ->
  exists i, reads (run w c acts) = S i /\
            prevCollectionTimestamp (run w c acts) = bucket (clock w i).
Proof.
  unfold run.
  apply (exec_invariant w (fun m =>
    pc m = AtSnapshot ->
    exists i, reads m = S i /\ prevCollectionTimestamp m = bucket (clock w i))).
  - intros m a H. by apply snapshot_after_poll_step.
  - discriminate.
Qed.

(** X10: with a clock that does not go back, no row of a flush carries a
    timestamp before the boundary whose crossing started that flush. *)
Theorem X10_rows_not_before_boundary (w : World) (c : Collector) (acts : list Act) :
  steady w ->
  let m := run w c acts in
  pc m = AtSnapshot ->
  Forall (fun r => prevCollectionTimestamp m <= db.timestamp r)
         (batch (flusher_step w m)).
Proof.
  intros Hsteady m Hpc.
  destruct (snapshot_after_poll w c acts Hpc) as (i & Hreads & Hprev). fold m in Hreads, Hprev.
  rewrite snapshot_batch by done. apply Forall_forall. intros r Hr.
  assert (Hin : db.timestamp r ∈
            map db.timestamp (stamped_rows w (ShareDifficulty (coll m)) (reads m)
                                (map_to_list (PendingStats (coll m))))).
  { apply list_elem_of_fmap. eauto. }
  rewrite stamped_rows_timestamps in Hin.
  apply list_elem_of_fmap in Hin as (j & -> & Hj). apply elem_of_seq in Hj.
  rewrite Hprev. apply bucket_mono, Hsteady. lia.
Qed.

Lemma steady_clock_a : steady Examples.world_ok.
Proof.
  intros i j Hij. simpl. unfold Examples.clock_a.
  do 5 (destruct i as [|i]; [do 5 (destruct j as [|j]; [lia|]); lia|]).
  do 4 (destruct j as [|j]; [lia|]). lia.
Qed.

Lemma X10_rows_not_before_boundary_witness :
  let m := run Examples.world_ok (NewCollector 1000)
             (ARecord Examples.rig1 :: Examples.turns 3) in
  Forall (fun r => 60 <= db.timestamp r) (batch (flusher_step Examples.world_ok m)).
Proof.
  apply (X10_rows_not_before_boundary Examples.world_ok (NewCollector 1000)
           (ARecord Examples.rig1 :: Examples.turns 3)).
  - apply steady_clock_a.
  - reflexivity.
Defined.

(** *** The calls into the database *)

(** X11: in any run there are as many calls of [PruneStats] as of
    [DB.Write], less one while a flush is between its write and its prune;
    and [PruneStats] is only ever called with the horizon of one day. *)
Theorem X11_prune_follows_write (w : World) (c : Collector) (acts : list Act) :
  let m := run w c acts in
  count_steps is_write (history m)
    = (count_steps is_prune (history m) + prune_pending (pc m))%nat /\
  Forall (fun s => match s with SPrune keep _ => keep = 86400 | _ => True end)
         (history m).
Proof.
  intros m. split.
  - destruct (flush_calls_run w c acts) as [Hw Hp]. fold m in Hw, Hp.
    destruct (pc m); cbn [writes_due prunes_due in_flush prune_pending] in *; lia.
  - subst m. unfold run.
    apply (exec_invariant w (fun m =>
      Forall (fun s => match s with SPrune keep _ => keep = 86400 | _ => True end)
             (history m))); [|constructor].
    intros m a H.
    act_cases m a; try (apply Forall_app; split; [exact H | by repeat constructor]).
    exact H.
Qed.

(** *** What [Run] does to the collector *)

Lemma difficulty_step w m a :
  ShareDifficulty (coll (act_step w m a)) = ShareDifficulty (coll m).
Proof. act_cases m a; done. Qed.

Lemma accumulator_step w m a :
  is_record a = false ->
  PendingStats (coll (act_step w m a)) = PendingStats (coll m) \/
  PendingStats (coll (act_step w m a)) = ∅.
Proof.
  intros Ha. act_cases m a; try discriminate; try (by left).
  right. apply clear_map_empty.
Qed.

(** X12: [Run] and [Stop] never change the difficulty, under any
    interleaving, and they never add or alter an entry of the accumulator:
    as long as [Record] is not called, the accumulator is what it was or,
    once [Clear] has run, empty. *)
Theorem X12_run_only_clears (w : World) (m : Machine) (acts : list Act) :
  let m' := exec w acts m in
  ShareDifficulty (coll m') = ShareDifficulty (coll m) /\
  (Forall (fun a => is_record a = false) acts ->
   PendingStats (coll m') = PendingStats (coll m) \/ PendingStats (coll m') = ∅).
Proof.
  revert m. induction acts as [|a acts IH]; intros m; simpl; [by auto|].
  destruct (IH (act_step w m a)) as [HD HP]. split.
  - by rewrite HD, difficulty_step.
  - intros Hall. apply Forall_cons in Hall as [Ha Hall].
    destruct (HP Hall) as [H|H]; [|by right].
    rewrite H. by apply accumulator_step.
Qed.

Lemma X12_run_only_clears_witness :
  let m := run Examples.world_ok (NewCollector 1000) [ARecord Examples.rig1] in
  let m' := exec Examples.world_ok (AStop :: Examples.turns 3) m in
  PendingStats (coll m') = PendingStats (coll m) \/ PendingStats (coll m') = ∅.
Proof.
  apply (X12_run_only_clears Examples.world_ok
           (run Examples.world_ok (NewCollector 1000) [ARecord Examples.rig1])
           (AStop :: Examples.turns 3)).
  vm_compute. repeat constructor.
Defined.

(** *** The order of the rows *)

Lemma stamps_ok_mono w r r' stamps :
  (r <= r')%nat -> stamps_ok w r stamps -> stamps_ok w r' stamps.
Proof.
  intros Hr [Hs Hb]. split; [done|].
  eapply Forall_impl; [exact Hb|]. simpl. intros t Ht j Hj. apply Ht. lia.
Qed.

Lemma seq_buckets_sorted w r n :
  steady w -> StronglySorted Z.le (map (fun i => bucket (clock w i)) (seq r n)).
Proof.
  intros Hsteady. revert r. induction n as [|n IH]; intros r; simpl; constructor.
  - apply IH.
  - apply Forall_forall. intros t Ht.
    apply list_elem_of_fmap in Ht as (j & -> & Hj). apply elem_of_seq in Hj.
    apply bucket_mono, Hsteady. lia.
Qed.

Lemma stamps_ok_snapshot w r n stamps :
  steady w -> stamps_ok w r stamps ->
  stamps_ok w (r + n) (stamps ++ map (fun i => bucket (clock w i)) (seq r n)).
Proof.
  intros Hsteady [Hs Hb]. split.
  - apply StronglySorted_app.
    split; [|split; [done | by apply seq_buckets_sorted]].
    intros t1 t2 Ht1 Ht2.
    apply list_elem_of_fmap in Ht2 as (j & -> & Hj). apply elem_of_seq in Hj.
    rewrite Forall_forall in Hb. apply (Hb t1 Ht1). lia.
  - apply Forall_app. split.
    + eapply Forall_impl; [exact Hb|]. simpl. intros t Ht j Hj. apply Ht. lia.
    + apply Forall_forall. intros t Ht j Hj.
      apply list_elem_of_fmap in Ht as (i & -> & Hi). apply elem_of_seq in Hi.
      apply bucket_mono, Hsteady. lia.
Qed.

Lemma written_snoc h s :
  written (h ++ [s]) = written h ++ match s with SWrite rows _ => rows | _ => [] end.
Proof. rewrite written_app. unfold written at 2. simpl. by rewrite app_nil_r. Qed.

Lemma stamps_inv_step w m a :
  steady w -> stamps_inv w m -> stamps_inv w (act_step w m a).
Proof.
  unfold stamps_inv. intros Hsteady Hinv.
  act_cases m a; try rewrite Hpc in Hinv;
    rewrite ?written_snoc; cbn [unwritten] in *;
    rewrite ?app_nil_r in *;
    try (eapply stamps_ok_mono; [|exact Hinv]; lia).
  - rewrite map_app, stamped_rows_timestamps. by apply stamps_ok_snapshot.
  - rewrite Hpc. cbn [unwritten]. by rewrite app_nil_r.
Qed.

(** X13: with a clock that does not go back, the rows reach the database
    in the order of their timestamps, within a batch and from one batch to
    the next: the timestamps of the rows written by a run, in the order in
    which they are written, never decrease. *)
Theorem X13_rows_written_in_time_order (w : World) (c : Collector) (acts : list Act) :
  steady w ->
  StronglySorted Z.le (map db.timestamp (written (history (run w c acts)))).
Proof.
  intros Hsteady.
  assert (H : stamps_inv w (run w c acts)).
  { unfold run. apply exec_invariant; [intros; by apply stamps_inv_step|].
    split; constructor. }
  destruct H as [Hs _]. rewrite map_app in Hs.
  apply StronglySorted_app in Hs. tauto.
Qed.

Lemma X13_rows_written_in_time_order_witness :
  let rows := written (history (run Examples.world_ok (NewCollector 1000) Examples.busy)) in
  map (fun s => match s with SWrite b _ => map db.timestamp b | _ => [] end)
      (List.filter is_write
         (history (run Examples.world_ok (NewCollector 1000) Examples.busy)))
    = [[60; 120]; [120]] /\
  StronglySorted Z.le (map db.timestamp rows).
Proof.
  split; [reflexivity|].
  apply (X13_rows_written_in_time_order Examples.world_ok (NewCollector 1000)
           Examples.busy).
  apply steady_clock_a.
Defined.

(** *** Between the snapshot and [Clear] *)

Lemma records_frame w rs : forall m,
  let m' := exec w (map ARecord rs) m in
  pc m' = pc m /\ batch m' = batch m /\ db_calls m' = db_calls m /\
  written (history m') = written (history m).
Proof.
  induction rs as [|r rs IH]; intros m; simpl; [done|].
  destruct (IH (with_coll (RecordStat r) (SRecord r) m)) as (Hpc & Hb & Hd & Hw).
  cbn [with_coll pc batch db_calls history] in *.
  rewrite written_app in Hw. unfold written at 3 in Hw. simpl in Hw.
  rewrite app_nil_r in Hw. done.
Qed.

(** X14: whatever is recorded after the snapshot section and before
    [Clear] is erased without a trace: after [Clear] the accumulator is
    empty, and the batch that the flush then writes is the one built before
    those calls of [Record]. *)
Theorem X14_gap_updates_erased (w : World) (m : Machine) (rs : list RecordArgs) :
  pc m = AtClear ->
  let m' := exec w (map ARecord rs ++ [AFlusher; AFlusher]) m in
  PendingStats (coll m') = ∅ /\
  written (history m') = written (history m) ++ batch m /\
  pc m' = AtLog.
Proof.
  intros Hpc m'. subst m'. rewrite exec_app.
  destruct (records_frame w rs m) as (Hpc' & Hb & Hd & Hw).
  set (m1 := exec w (map ARecord rs) m) in *. rewrite Hpc in Hpc'.
  cbn [exec fold_left act_step].
  rewrite (flusher_step_write w (flusher_step w m1)),
          (flusher_step_clear w m1) by (by rewrite ?flusher_step_clear).
  cbn [coll pc history batch Clear PendingStats].
  rewrite clear_map_empty, !written_app, Hw, Hb.
  unfold written at 2 3. simpl. by rewrite !app_nil_r.
Qed.

Lemma X14_gap_updates_erased_witness :
  let m := run Examples.world_ok (NewCollector 1000)
             (ARecord Examples.rig1 :: Examples.turns 4) in
  let m' := exec Examples.world_ok
              (map ARecord [Examples.rig1_more; Examples.rig2] ++ [AFlusher; AFlusher]) m in
  pc m = AtClear /\ PendingStats (coll m') = ∅ /\
  written (history m') = written (history m) ++ batch m.
Proof.
  split; [reflexivity|].
  destruct (X14_gap_updates_erased Examples.world_ok
              (run Examples.world_ok (NewCollector 1000)
                 (ARecord Examples.rig1 :: Examples.turns 4))
              [Examples.rig1_more; Examples.rig2] eq_refl) as (He & Hw & _).
  split; [exact He | exact Hw].
Defined.

(** *** Flushes and period indices *)

Lemma crossed_app h1 h2 : crossed (h1 ++ h2) = crossed h1 ++ crossed h2.
Proof. unfold crossed. by rewrite map_app, concat_app. Qed.

Lemma triggered_crossed h : triggered h = map bucket (crossed h).
Proof.
  unfold triggered, crossed. induction h as [|s h IH]; simpl; [done|].
  rewrite map_app, IH. by destruct s.
Qed.

Lemma crossed_polled h t : t ∈ crossed h -> t ∈ polled h.
Proof.
  unfold crossed, polled. induction h as [|s h IH]; simpl; [done|].
  rewrite !elem_of_app. intros [H|H]; [left | right; by apply IH].
  destruct s; simpl in *; try done; by apply elem_of_nil in H.
Qed.

Lemma total_reads_snoc h s :
  total_reads (h ++ [s]) = (total_reads h + clock_reads s)%nat.
Proof. unfold total_reads. induction h as [|a h IH]; simpl; lia. Qed.

Lemma agrees_snoc w h : forall k s,
  agrees w k (h ++ [s]) <->
  agrees w k h /\
  match s with
  | SStart t | SIdle t | SCross t => t = clock w (k + total_reads h)
  | _ => True
  end.
Proof.
  induction h as [|a h IH]; intros k s.
  - cbn [app agrees total_reads foldr]. rewrite Nat.add_0_r. tauto.
  - cbn [app agrees]. rewrite IH.
    change (total_reads (a :: h)) with (clock_reads a + total_reads h)%nat.
    rewrite Nat.add_assoc. tauto.
Qed.

Lemma reads_inv_step w m a : reads_inv w m -> reads_inv w (act_step w m a).
Proof.
  unfold reads_inv. intros [Hag Hr].
  act_cases m a; rewrite ?agrees_snoc, ?total_reads_snoc, <- ?Hr;
    cbn [clock_reads Nat.add]; try (split; [tauto | lia]).
  rewrite stamped_rows_length. split; [tauto | lia].
Qed.

Lemma reads_inv_run w c acts : reads_inv w (run w c acts).
Proof.
  unfold run. apply exec_invariant; [intros; by apply reads_inv_step|].
  by split.
Qed.

Lemma polls_ok_mono w r r' values :
  (r <= r')%nat -> polls_ok w r values -> polls_ok w r' values.
Proof.
  intros Hr [Hs Hb]. split; [done|].
  eapply Forall_impl; [exact Hb|]. simpl. intros t [H0 Ht]. split; [done|].
  intros j Hj. apply Ht. lia.
Qed.

Lemma polls_ok_snoc w r values :
  steady w -> (forall i, 0 <= clock w i) ->
  polls_ok w r values -> polls_ok w (S r) (values ++ [clock w r]).
Proof.
  intros Hsteady Hpos [Hs Hb]. split.
  - apply StronglySorted_app. split; [|split; [done | repeat constructor]].
    intros t1 t2 Ht1 ->%list_elem_of_singleton.
    rewrite Forall_forall in Hb. by apply (Hb t1 Ht1).
  - apply Forall_app. split.
    + eapply Forall_impl; [exact Hb|]. simpl. intros t [H0 Ht]. split; [done|].
      intros j Hj. apply Ht. lia.
    + constructor; [|constructor]. split; [apply Hpos|].
      intros j Hj. apply Hsteady. lia.
Qed.

Lemma polls_inv_step w m a :
  steady w -> (forall i, 0 <= clock w i) ->
  polls_inv w m -> polls_inv w (act_step w m a).
Proof.
  unfold polls_inv. intros Hsteady Hpos (Hentry & Hstarted & Hok).
  act_cases m a;
    rewrite ?starts_app, ?polled_app; cbn [starts polled map concat app];
    rewrite ?app_nil_r.
  - destruct (Hentry eq_refl) as (Hr & Hs & Hp).
    rewrite Hr, Hs, Hp in *. cbn [app] in *.
    split; [discriminate|]. split; [done|].
    by apply (polls_ok_snoc w 0 []).
  - split; [discriminate|]. split; [intros _; apply Hstarted; discriminate | done].
  - split; [discriminate|]. split; [intros _; apply Hstarted; discriminate|].
    rewrite app_assoc. by apply polls_ok_snoc.
  - split; [discriminate|]. split; [intros _; apply Hstarted; discriminate|].
    rewrite app_assoc. by apply polls_ok_snoc.
  - split; [discriminate|]. split; [intros _; apply Hstarted; discriminate|].
    eapply polls_ok_mono; [|exact Hok]. lia.
  - split; [discriminate|]. split; [intros _; apply Hstarted; discriminate | done].
  - split; [discriminate|]. split; [intros _; apply Hstarted; discriminate | done].
  - split; [discriminate|]. split; [intros _; apply Hstarted; discriminate | done].
  - split; [discriminate|]. split; [intros _; apply Hstarted; discriminate | done].
  - rewrite Hpc. split; [discriminate|].
    split; [intros _; apply Hstarted; discriminate | done].
  - done.
  - done.
Qed.

Lemma polls_inv_run w c acts :
  steady w -> (forall i, 0 <= clock w i) -> polls_inv w (run w c acts).
Proof.
  intros Hsteady Hpos. unfold run.
  apply exec_invariant; [intros; by apply polls_inv_step|].
  unfold polls_inv. simpl. repeat split; try done; constructor.
Qed.

Lemma flusher_turns_snoc acts a :
  flusher_turns (acts ++ [a]) =
    (flusher_turns acts + if is_flusher a then 1 else 0)%nat.
Proof.
  unfold flusher_turns. rewrite List.filter_app, length_app. simpl.
  by destruct (is_flusher a).
Qed.

(** Every turn of [Run] before its return is a section in the history, and
    [Run] has started as soon as it had a turn. *)
Lemma turns_in_history w c acts :
  (pc (run w c acts) <> Returned ->
   count_steps by_flusher (history (run w c acts)) = flusher_turns acts) /\
  (pc (run w c acts) = AtEntry <-> flusher_turns acts = 0%nat).
Proof.
  induction acts as [|a acts IH] using rev_ind; [by split|].
  unfold run in *. rewrite exec_app. cbn [exec fold_left].
  rewrite flusher_turns_snoc.
  set (m := exec w acts (boot c)) in *. destruct IH as [Hcount Hentry].
  act_cases m a; rewrite ?count_steps_snoc; cbn [by_flusher is_flusher];
    try rewrite Hpc in *;
    try (split; [intros _; rewrite Hcount by discriminate; lia
                | split; [discriminate | lia]]).
  - split; [done|]. split; [discriminate | lia].
  - split; [intros H; rewrite Hcount by done; lia | rewrite Hentry; lia].
  - split; [intros H; rewrite Hcount by done; lia | rewrite Hentry; lia].
Qed.

Lemma bucket_index t : 0 <= t -> bucket t = 60 * period_index t.
Proof. apply bucket_floor. Qed.

Lemma period_index_mono a b : a <= b -> period_index a <= period_index b.
Proof. intros H. unfold period_index, statCollectionPeriodSecs. apply Z.div_le_mono; lia. Qed.

Lemma indices_sorted l :
  StronglySorted Z.le l -> StronglySorted Z.le (map period_index l).
Proof.
  induction 1 as [|x l Hs IH Hall]; simpl; constructor; [assumption|].
  apply Forall_fmap. eapply Forall_impl; [exact Hall|].
  intros y Hy. by apply period_index_mono.
Qed.

Lemma buckets_of_indices l :
  Forall (fun t => 0 <= t) l -> map bucket l = map (Z.mul 60) (map period_index l).
Proof.
  induction 1 as [|t l Ht _ IH]; simpl; [done|]. by rewrite IH, bucket_index.
Qed.

Lemma changes_scaled l : forall p,
  changes (60 * p) (map (Z.mul 60) l) = map (Z.mul 60) (changes p l).
Proof.
  induction l as [|x l IH]; intros p; simpl; [done|].
  destruct (p =? x) eqn:E.
  - apply Z.eqb_eq in E as ->. rewrite Z.eqb_refl. apply IH.
  - apply Z.eqb_neq in E.
    destruct (60 * p =? 60 * x) eqn:E'; [apply Z.eqb_eq in E'; lia|].
    simpl. by rewrite IH.
Qed.

Lemma scaled_inj l1 : forall l2,
  map (Z.mul 60) l1 = map (Z.mul 60) l2 -> l1 = l2.
Proof.
  induction l1 as [|x l1 IH]; intros [|y l2]; simpl; try done.
  intros H. injection H as Hxy H. f_equal; [lia | by apply IH].
Qed.

Lemma no_poll_no_cross h : polled h = [] -> crossed h = [].
Proof.
  intros Hp. destruct (crossed h) as [|t l] eqn:E; [done|].
  assert (Hin : t ∈ crossed h) by (rewrite E; by left).
  apply crossed_polled in Hin. rewrite Hp in Hin. by apply elem_of_nil in Hin.
Qed.

(** C6, as the specification states it, fails.  With a clock that is set
    back (30, 61, 59, 61) the loop flushes at each of its three polls, so
    the period of index 1 is flushed twice.  With a clock that starts
    before 1970 (-30, then 30) the index goes from -1 to 0 and no flush
    starts, the division of line 84 truncating toward zero. *)
Lemma C6_counterexample :
  let back := history (run Examples.world_back (NewCollector 1000) (Examples.turns 19)) in
  let old := history (run Examples.world_old (NewCollector 1000) (Examples.turns 4)) in
  polled back = [61; 59; 61] /\
  map period_index (crossed back) = [1; 0; 1] /\
  count_steps is_write back = 3%nat /\
  ~ NoDup (map period_index (crossed back)) /\
  starts old = [-30] /\ polled old = [30; 30; 30] /\
  period_index (-30) = -1 /\ map period_index (polled old) = [0; 0; 0] /\
  crossed old = [] /\ count_steps is_write old = 0%nat.
Proof.
  vm_compute. repeat split; try reflexivity.
  intros H. apply NoDup_cons in H as [Hin _]. apply Hin.
  right. left.
Qed.

(** C6, amended: with a wall clock that never goes back and is not before
    1970, in any run: every turn of [Run] before its return is a section of
    the history, the first being the start, and the values in the history
    are those of the clock; a flush is started at exactly the polls whose
    period index, the floor of the Unix time divided by 60, differs from
    the index of the poll before, the index read at the start being before
    the first poll, and each flush started makes one call of [DB.Write];
    so the indices flushed are strictly increasing, each new index that a
    poll sees is flushed exactly once however many polls see it, and no
    flush is started while the polls are in the period of the start. *)
Theorem C6_one_flush_per_new_index (w : World) (c : Collector) (acts : list Act) :
  steady w -> (forall i, 0 <= clock w i) ->
  let m := run w c acts in
  let h := history m in
  let index0 := period_index (clock w 0) in
  (pc m <> Returned -> count_steps by_flusher h = flusher_turns acts) /\
  starts h = match flusher_turns acts with O => [] | S _ => [clock w 0] end /\
  agrees w 0 h /\
  map period_index (crossed h) = changes index0 (map period_index (polled h)) /\
  (count_steps is_write h + writes_due (pc m))%nat = length (crossed h) /\
  StronglySorted Z.lt (index0 :: map period_index (crossed h)) /\
  (forall i, i ∈ map period_index (crossed h) <->
             i <> index0 /\ exists t, t ∈ polled h /\ period_index t = i) /\
  (Forall (fun t => period_index t = index0) (polled h) -> crossed h = []).
Proof.
  intros Hsteady Hpos m h index0.
  destruct (polls_inv_run w c acts Hsteady Hpos) as (Hentry & Hstarted & Hsorted & Hall).
  destruct (reads_inv_run w c acts) as [Hag _].
  destruct (turns_in_history w c acts) as [Hcount Hturns].
  pose proof (poll_inv_run w c acts) as Hpoll.
  destruct (flush_calls_run w c acts) as [Hw _].
  fold m in Hentry, Hstarted, Hsorted, Hall, Hag, Hcount, Hturns, Hpoll, Hw.
  fold h in Hentry, Hstarted, Hsorted, Hall, Hag, Hcount, Hpoll, Hw.
  assert (Hstarts : starts h = match flusher_turns acts with
                               | O => [] | S _ => [clock w 0] end).
  { destruct (flusher_turns acts) eqn:E.
    - by apply Hentry, Hturns.
    - apply Hstarted. intros Hpc. apply Hturns in Hpc. discriminate. }
  assert (Hnonneg : Forall (fun t => 0 <= t) (polled h)).
  { apply Forall_app in Hall as [_ Hall].
    eapply Forall_impl; [exact Hall|]. by intros t [? _]. }
  assert (Hcrossed : Forall (fun t => 0 <= t) (crossed h)).
  { apply Forall_forall. intros t Ht. apply crossed_polled in Ht.
    rewrite Forall_forall in Hnonneg. by apply Hnonneg. }
  assert (Hle : StronglySorted Z.le (index0 :: map period_index (polled h))).
  { destruct (starts h) as [|t0 rest] eqn:E.
    - destruct (flusher_turns acts); [|discriminate].
      destruct (Hentry (proj2 Hturns eq_refl)) as (_ & _ & ->). repeat constructor.
    - destruct (flusher_turns acts); [discriminate|]. injection Hstarts as -> ->.
      apply indices_sorted in Hsorted. exact Hsorted. }
  assert (Hchanges : map period_index (crossed h)
                     = changes index0 (map period_index (polled h))).
  { unfold poll_inv in Hpoll. fold h in Hpoll.
    destruct (starts h) as [|t0 rest] eqn:E.
    - destruct Hpoll as (_ & Hp & _). rewrite Hp, (no_poll_no_cross h Hp). done.
    - destruct (flusher_turns acts); [discriminate|]. injection Hstarts as -> ->.
      destruct Hpoll as (_ & _ & Htrig & _).
      rewrite triggered_crossed, (buckets_of_indices _ Hcrossed),
        (buckets_of_indices _ Hnonneg), (bucket_index (clock w 0) (Hpos 0%nat)),
        changes_scaled in Htrig.
      by apply scaled_inj in Htrig. }
  split; [exact Hcount|]. split; [exact Hstarts|]. split; [exact Hag|].
  split; [exact Hchanges|]. split.
  { rewrite Hw, triggered_crossed. by rewrite length_map. }
  rewrite Hchanges. split; [by apply changes_increasing|]. split.
  - intros i. split.
    + intros Hi. split.
      * pose proof (changes_above _ _ Hle) as Habove.
        rewrite Forall_forall in Habove. specialize (Habove i Hi). lia.
      * apply changes_sub in Hi. apply list_elem_of_fmap in Hi as (t & -> & Ht).
        eauto.
    + intros (Hne & t & Ht & <-). apply changes_complete; [|done].
      apply list_elem_of_fmap. eauto.
  - intros Hsame.
    assert (Hnil : changes index0 (map period_index (polled h)) = []).
    { apply changes_same. by apply Forall_fmap. }
    rewrite <- Hchanges in Hnil. by apply map_eq_nil in Hnil.
Qed.

Lemma nonneg_clock_a i : 0 <= clock Examples.world_ok i.
Proof. simpl. unfold Examples.clock_a. do 4 (destruct i as [|i]; [lia|]). lia. Qed.

Lemma C6_one_flush_per_new_index_witness :
  let h := history (run Examples.world_ok (NewCollector 1000) Examples.racing) in
  polled h = [45; 61; 125; 125] /\
  crossed h = [61; 125] /\
  map period_index (crossed h) = changes 0 (map period_index (polled h)).
Proof.
  split; [reflexivity|]. split; [reflexivity|].
  pose proof (C6_one_flush_per_new_index Examples.world_ok (NewCollector 1000)
                Examples.racing steady_clock_a nonneg_clock_a)
    as (_ & _ & _ & H & _).
  exact H.
Defined.
